(** * Extractor de datos de informes de caja: [app.py]

    A shallow embedding of the extraction core of [app.py]
    ([limpiar_valor_monetario], [extraer_datos_pdf], [procesar_pdf] and the
    batch loop) together with the fragment of Python's [re], [str] and [int]
    that these functions use.

    Modelling conventions.
    - A Python [str] is a [list ascii]; every [ascii] stands for the code
      point of the same number, so the texts covered are those over code
      points below 256.  On that range [\d] is [0-9] and [\s] (as well as
      the set removed by [str.strip()]) is 9-13, 28-32, 133 and 160.
    - [re.search] is a backtracking matcher over the pattern fragment the
      source uses: single-character sets, greedy and lazy repetition of a
      set, an optional set and capture groups.
    - The dict [datos] is a [gmap string valor].
    - [st.error] appends to a log of messages; the [try]/[except] blocks are
      explicit results.
    - [int] is modelled without the interpreter's configurable limit on the
      number of digits. *)

From Stdlib Require Import ZArith Ascii String List Bool Lia.
From stdpp Require Import base option list gmap strings.

Open Scope Z_scope.
Open Scope list_scope.

Abbreviation str := (list ascii).

(** A Python string literal. *)
Definition lit (s : string) : str := list_ascii_of_string s.

(** ** Character predicates *)

Definition code (c : ascii) : N := N_of_ascii c.

(** [\d] and [str.isdigit] below 256. *)
Definition is_digit (c : ascii) : bool :=
  ((48 <=? code c) && (code c <=? 57))%N.

(** [\s] and [str.isspace] below 256. *)
Definition is_space (c : ascii) : bool :=
  (((9 <=? code c) && (code c <=? 13)) || ((28 <=? code c) && (code c <=? 32))
   || (code c =? 133) || (code c =? 160))%N.

Definition ascii_eqb (a b : ascii) : bool := (code a =? code b)%N.

(** ** The pattern fragment of [re] *)

(** Character sets occurring in the patterns of [extraer_datos_pdf]. *)
Inductive cset :=
| Digit                      (* \d *)
| Space                      (* \s *)
| AnyChar                    (* [\s\S] *)
| DigitComma                 (* [\d,] *)
| OneOf (l : list ascii).    (* a literal character or a class such as [AP] *)

Definition mem (p : cset) (c : ascii) : bool :=
  match p with
  | Digit => is_digit c
  | Space => is_space c
  | AnyChar => is_space c || negb (is_space c)
  | DigitComma => is_digit c || ascii_eqb c ","
  | OneOf l => existsb (ascii_eqb c) l
  end.

Inductive item :=
| One (p : cset)        (* exactly one character of p *)
| Star (p : cset)       (* p*  greedy *)
| Lazy (p : cset)       (* p*? lazy *)
| Opt (p : cset)        (* p?  greedy *)
| Open                  (* ( *)
| Close.                (* ) *)

Abbreviation regex := (list item).

(** Capture state: the group being captured (most recent character first)
    and the groups already closed, in order. *)
Record caps := Caps { cur : option str; closed : list str }.

Definition caps0 : caps := Caps None [].

Definition push (c : ascii) (st : caps) : caps :=
  match cur st with
  | Some acc => Caps (Some (c :: acc)) (closed st)
  | None => st
  end.

Definition open_group (st : caps) : caps := Caps (Some []) (closed st).

Definition close_group (st : caps) : caps :=
  match cur st with
  | Some acc => Caps None (closed st ++ [rev acc])
  | None => st
  end.

(** A match object: the captured groups and the text after the match. *)
Record match_obj := Match { groups : list str; rest : str }.

Definition or_else {A} (x : option A) (y : option A) : option A :=
  match x with Some _ => x | None => y end.

(** [re.match] at the start of [s]: the first match in backtracking order. *)
Fixpoint m (r : regex) : str -> caps -> option match_obj :=
  match r with
  | [] => fun s st => Some (Match (closed st) s)
  | One p :: r' => fun s st =>
      match s with
      | c :: s' => if mem p c then m r' s' (push c st) else None
      | [] => None
      end
  | Opt p :: r' => fun s st =>
      or_else
        match s with
        | c :: s' => if mem p c then m r' s' (push c st) else None
        | [] => None
        end
        (m r' s st)
  | Star p :: r' =>
      fix loop (s : str) : caps -> option match_obj := fun st =>
        or_else
          match s with
          | c :: s' => if mem p c then loop s' (push c st) else None
          | [] => None
          end
          (m r' s st)
  | Lazy p :: r' =>
      fix loop (s : str) : caps -> option match_obj := fun st =>
        or_else
          (m r' s st)
          match s with
          | c :: s' => if mem p c then loop s' (push c st) else None
          | [] => None
          end
  | Open :: r' => fun s st => m r' s (open_group st)
  | Close :: r' => fun s st => m r' s (close_group st)
  end.

(** [re.search]: the match at the leftmost start position that has one. *)
Fixpoint search (r : regex) (s : str) : option match_obj :=
  or_else (m r s caps0)
    match s with
    | [] => None
    | _ :: s' => search r s'
    end.

(** [match.group(i)] for i >= 1. *)
Definition group (i : nat) (mo : match_obj) : option str :=
  nth_error (groups mo) (i - 1).

(** *** Pattern syntax *)

Definition lits (l : str) : regex := map (fun c => One (OneOf [c])) l.
Definition chars (s : string) : regex := lits (lit s).

Definition ws : regex := [Star Space].                       (* \s* *)
Definition ws1 : regex := [One Space; Star Space].           (* \s+ *)
Definition d2 : regex := [One Digit; One Digit].             (* \d{2} *)
Definition d4 : regex := d2 ++ d2.                           (* \d{4} *)
Definition skip : regex := [Lazy AnyChar].                   (* [\s\S]*? *)
(** [\$?([\d,]+)] *)
Definition monto : regex :=
  [Opt (OneOf ["$"%char]); Open; One DigitComma; Star DigitComma; Close].
(** [(\d{2}/\d{2}/\d{4}\s+\d{2}:\d{2}:\d{2}\s+[AP]M)] *)
Definition fecha_hora : regex :=
  [Open] ++ d2 ++ chars "/" ++ d2 ++ chars "/" ++ d4 ++ ws1
    ++ d2 ++ chars ":" ++ d2 ++ chars ":" ++ d2 ++ ws1
    ++ [One (OneOf ["A"%char; "P"%char])] ++ chars "M" ++ [Close].

(** [r'A:\s*(\d{2}/\d{2}/\d{4}\s+\d{2}:\d{2}:\d{2}\s+[AP]M)'] *)
Definition patron_apertura : regex := chars "A:" ++ ws ++ fecha_hora.
(** [r'C:\s*(\d{2}/\d{2}/\d{4}\s+\d{2}:\d{2}:\d{2}\s+[AP]M)'] *)
Definition patron_cierre : regex := chars "C:" ++ ws ++ fecha_hora.

(** [V\.\s*Bruta\s*:\s*\$?([\d,]+)] *)
Definition v_bruta : regex :=
  chars "V." ++ ws ++ chars "Bruta" ++ ws ++ chars ":" ++ ws ++ monto.
(** [Total\s*:\s*\$?([\d,]+)] *)
Definition total : regex := chars "Total" ++ ws ++ chars ":" ++ ws ++ monto.
(** [Val\.\s*Ventas\s*:\s*\$?([\d,]+)] *)
Definition val_ventas : regex :=
  chars "Val." ++ ws ++ chars "Ventas" ++ ws ++ chars ":" ++ ws ++ monto.
(** [Medio\s*:\s*] followed by the name of the payment method *)
Definition medio (nombre : string) : regex :=
  chars "Medio" ++ ws ++ chars ":" ++ ws ++ chars nombre.

(** [r'DATOS DE FACTURAS[\s\S]*?V\.\s*Bruta\s*:\s*\$?([\d,]+)[\s\S]*?Total\s*:\s*\$?([\d,]+)'] *)
Definition patron_seccion_facturas : regex :=
  chars "DATOS DE FACTURAS" ++ skip ++ v_bruta ++ skip ++ total.
(** [r'Medio\s*:\s*EFECTIVO[\s\S]*?Val\.\s*Ventas\s*:\s*\$?([\d,]+)'] *)
Definition patron_efectivo : regex := medio "EFECTIVO" ++ skip ++ val_ventas.
(** [r'Medio\s*:\s*DATAFONO[\s\S]*?Val\.\s*Ventas\s*:\s*\$?([\d,]+)'] *)
Definition patron_datafono : regex := medio "DATAFONO" ++ skip ++ val_ventas.
(** [r'DETALLE DE EGRESOS[\s\S]*?Total\s*:\s*\$?([\d,]+)'] *)
Definition patron_egresos : regex := chars "DETALLE DE EGRESOS" ++ skip ++ total.
(** [r'Diferencia:\s*\$?([\d,]+)'] *)
Definition patron_diferencia : regex := chars "Diferencia:" ++ ws ++ monto.

(** ** [str] methods and [int] *)

(** [s.replace(old, new)] for a one-character [old]. *)
Definition replace (old : ascii) (new : str) (s : str) : str :=
  flat_map (fun c => if ascii_eqb c old then new else [c]) s.

Fixpoint lstrip (s : str) : str :=
  match s with
  | c :: s' => if is_space c then lstrip s' else s
  | [] => []
  end.

Definition rstrip (s : str) : str := rev (lstrip (rev s)).

(** [s.strip()] *)
Definition strip (s : str) : str := rstrip (lstrip s).

Inductive exn :=
| ValueError (literal : str)     (* invalid literal for int() with base 10 *)
| TypeError                      (* None + str *)
| PdfError.                      (* raised by the PDF library *)

Definition digit_val (c : ascii) : Z := Z.of_N (code c) - 48.

(** Digits with single underscores between them; [prev] tells whether the
    previous character was a digit. *)
Fixpoint int_digits (acc : Z) (prev : bool) (s : str) : option Z :=
  match s with
  | [] => if prev then Some acc else None
  | c :: s' =>
      if is_digit c then int_digits (10 * acc + digit_val c) true s'
      else if ascii_eqb c "_" && prev then int_digits acc false s'
      else None
  end.

(** [int(s)] for a [str] argument, base 10. *)
Definition int (s : str) : exn + Z :=
  let t := strip s in
  let r :=
    match t with
    | c :: t' =>
        if ascii_eqb c "-" then Z.opp <$> int_digits 0 false t'
        else if ascii_eqb c "+" then int_digits 0 false t'
        else int_digits 0 false t
    | [] => None
    end in
  match r with
  | Some z => inr z
  | None => inl (ValueError s)
  end.

(** ** [limpiar_valor_monetario] *)

(** [valor] is a [str] or [None]; [if valor] holds for a non-empty [str]. *)
Definition limpiar_valor_monetario (valor : option str) : str :=
  match valor with
  | Some ((_ :: _) as v) => strip (replace "," [] (replace "$" [] v))
  | _ => lit "0"
  end.

(** ** The record [datos] and the statements of the [try] block *)

Inductive valor :=
| VStr (s : str)
| VInt (z : Z)
| VNone.

Abbreviation datos := (gmap string valor).

(** The dict literal at the head of [extraer_datos_pdf]. *)
Definition datos_iniciales : datos :=
  <["Diferencia" := VInt 0]> (<["Total_Egresos" := VInt 0]> (
  <["Datafono" := VInt 0]> (<["Efectivo" := VInt 0]> (
  <["Total" := VInt 0]> (<["V_Bruta" := VInt 0]> (
  <["Cierre" := VStr []]> (<["Apertura" := VStr []]> ∅))))))).

(** A statement of the [try] block acts on the dict in place and either
    completes or raises; what it wrote before raising stays written. *)
Definition stmt := datos -> option exn * datos.

Definition pass : stmt := fun d => (None, d).

Definition seguido (a b : stmt) : stmt := fun d =>
  match a d with
  | (None, d') => b d'
  | (Some e, d') => (Some e, d')
  end.

Notation "a ;> b" := (seguido a b) (at level 62, right associativity).

(** [datos[k] = match.group(i)] *)
Definition asignar_str (k : string) (g : option str) : stmt := fun d =>
  (None, <[k := match g with Some s => VStr s | None => VNone end]> d).

(** [datos[k] = int(limpiar_valor_monetario(match.group(i)))] *)
Definition asignar_int (k : string) (g : option str) : stmt := fun d =>
  match int (limpiar_valor_monetario g) with
  | inr z => (None, <[k := VInt z]> d)
  | inl e => (Some e, d)
  end.

(** [match = re.search(patron, texto)] followed by [if match: ...]. *)
Definition si_match (patron : regex) (texto : str)
    (entonces : match_obj -> stmt) : stmt :=
  match search patron texto with
  | Some mo => entonces mo
  | None => pass
  end.

Definition extraer_apertura (texto : str) : stmt :=
  si_match patron_apertura texto (fun mo => asignar_str "Apertura" (group 1 mo)).

Definition extraer_cierre (texto : str) : stmt :=
  si_match patron_cierre texto (fun mo => asignar_str "Cierre" (group 1 mo)).

Definition extraer_facturas (texto : str) : stmt :=
  si_match patron_seccion_facturas texto (fun mo =>
    asignar_int "V_Bruta" (group 1 mo) ;> asignar_int "Total" (group 2 mo)).

Definition extraer_efectivo (texto : str) : stmt :=
  si_match patron_efectivo texto (fun mo => asignar_int "Efectivo" (group 1 mo)).

Definition extraer_datafono (texto : str) : stmt :=
  si_match patron_datafono texto (fun mo => asignar_int "Datafono" (group 1 mo)).

Definition extraer_egresos (texto : str) : stmt :=
  si_match patron_egresos texto (fun mo =>
    asignar_int "Total_Egresos" (group 1 mo)).

Definition extraer_diferencia (texto : str) : stmt :=
  si_match patron_diferencia texto (fun mo =>
    asignar_int "Diferencia" (group 1 mo)).

(** The statements of the [try] block, in source order. *)
Definition pasos (texto : str) : list stmt :=
  [ extraer_apertura texto; extraer_cierre texto; extraer_facturas texto;
    extraer_efectivo texto; extraer_datafono texto; extraer_egresos texto;
    extraer_diferencia texto ].

Definition secuencia (l : list stmt) : stmt := foldr seguido pass l.

(** Messages shown through [st.error]. *)
Inductive mensaje :=
| Error_al_extraer (e : exn)       (* "Error al extraer datos: {e}" *)
| Error_al_procesar (e : exn).     (* "Error al procesar PDF: {e}" *)

(** [datos = {...}; try: <cuerpo> except Exception as e: st.error(...);
    return datos]: the returned dict and the messages shown. *)
Definition ejecutar (cuerpo : list stmt) : datos * list mensaje :=
  match secuencia cuerpo datos_iniciales with
  | (None, d) => (d, [])
  | (Some e, d) => (d, [Error_al_extraer e])
  end.

Definition extraer_datos_pdf (contenido_texto : str) : datos * list mensaje :=
  ejecutar (pasos contenido_texto).

(** ** [procesar_pdf] and the batch loop *)

(** An uploaded file: its name and what the PDF library does with it.
    Opening it raises or yields pages; [extract_text()] on a page raises,
    returns [None] or returns a [str]. *)
Record archivo := Archivo {
  name : str;
  abrir : exn + list (exn + option str)
}.

Definition nl : str := ["010"%char].

(** The loop [texto_completo += pagina.extract_text() + "\n"]. *)
Fixpoint leer_paginas (texto_completo : str) (paginas : list (exn + option str))
    : exn + str :=
  match paginas with
  | [] => inr texto_completo
  | inl e :: _ => inl e
  | inr None :: _ => inl TypeError
  | inr (Some t) :: ps => leer_paginas (texto_completo ++ (t ++ nl)) ps
  end.

(** [procesar_pdf]: a dict or [None], and the messages shown. *)
Definition procesar_pdf (archivo_pdf : archivo) : option datos * list mensaje :=
  match abrir archivo_pdf with
  | inl e => (None, [Error_al_procesar e])
  | inr paginas =>
      match leer_paginas [] paginas with
      | inl e => (None, [Error_al_procesar e])
      | inr texto_completo =>
          let (d, log) := extraer_datos_pdf texto_completo in (Some d, log)
      end
  end.

Record lote := Lote {
  resultados : list datos;
  errores : list str;
  mostrados : list mensaje
}.

(** One iteration of [for idx, uploaded_file in enumerate(uploaded_files)];
    [if datos] holds for a dict that is not empty. *)
Definition procesar_uno (st : lote) (uploaded_file : archivo) : lote :=
  let (r, log) := procesar_pdf uploaded_file in
  match r with
  | Some d =>
      if bool_decide (d = ∅)
      then Lote (resultados st) (errores st ++ [name uploaded_file])
                (mostrados st ++ log)
      else Lote (resultados st ++ [<["Archivo" := VStr (name uploaded_file)]> d])
                (errores st) (mostrados st ++ log)
  | None => Lote (resultados st) (errores st ++ [name uploaded_file])
                 (mostrados st ++ log)
  end.

Definition procesar_lote (uploaded_files : list archivo) : lote :=
  fold_left procesar_uno uploaded_files (Lote [] [] []).

(** ** Declarative reading of the patterns *)

Definition pushl (w : str) (st : caps) : caps :=
  fold_left (fun st c => push c st) w st.

(** [Matches r s st st']: the pattern [r] matches exactly the string [s],
    taking the capture state from [st] to [st'].  No order among the
    possible matches is expressed here. *)
Inductive Matches : regex -> str -> caps -> caps -> Prop :=
| M_nil st : Matches [] [] st st
| M_one p r c s st st' :
    mem p c = true -> Matches r s (push c st) st' ->
    Matches (One p :: r) (c :: s) st st'
| M_opt_skip p r s st st' :
    Matches r s st st' -> Matches (Opt p :: r) s st st'
| M_opt_take p r c s st st' :
    mem p c = true -> Matches r s (push c st) st' ->
    Matches (Opt p :: r) (c :: s) st st'
| M_star_stop p r s st st' :
    Matches r s st st' -> Matches (Star p :: r) s st st'
| M_star_step p r c s st st' :
    mem p c = true -> Matches (Star p :: r) s (push c st) st' ->
    Matches (Star p :: r) (c :: s) st st'
| M_lazy_stop p r s st st' :
    Matches r s st st' -> Matches (Lazy p :: r) s st st'
| M_lazy_step p r c s st st' :
    mem p c = true -> Matches (Lazy p :: r) s (push c st) st' ->
    Matches (Lazy p :: r) (c :: s) st st'
| M_open r s st st' :
    Matches r s (open_group st) st' -> Matches (Open :: r) s st st'
| M_close r s st st' :
    Matches r s (close_group st) st' -> Matches (Close :: r) s st st'.

(** [r] matches the whole of [s]. *)
Definition matches (r : regex) (s : str) : Prop :=
  exists st', Matches r s caps0 st'.

(** [r] matches at the start of [s] ([re.match(r, s)] is not [None]). *)
Definition match_at (r : regex) (s : str) : bool :=
  match m r s caps0 with Some _ => true | None => false end.

(** No match of [r] starts at one of the positions of [a] in [a ++ b]. *)
Fixpoint no_start_in (r : regex) (a b : str) : bool :=
  match a with
  | [] => true
  | _ :: a' => negb (match_at r (a ++ b)) && no_start_in r a' b
  end.

(** [s] is an occurrence of [r] whose groups capture [gs]. *)
Definition occurrence (r : regex) (s : str) (gs : list str) : Prop :=
  exists st', Matches r s caps0 st' /\ closed st' = gs.

(** Patterns without capture groups. *)
Definition plain (r : regex) : bool :=
  forallb (fun it => match it with Open | Close => false | _ => true end) r.

Definition all_ascii : list ascii := map ascii_of_nat (List.seq 0 256).

(** The characters a match of [r] can start with, [fol] being those that
    can come after it. *)
Fixpoint firsts (r : regex) (fol : ascii -> bool) (c : ascii) : bool :=
  match r with
  | [] => fol c
  | One p :: _ => mem p c
  | Star p :: r' | Lazy p :: r' | Opt p :: r' => mem p c || firsts r' fol c
  | Open :: r' | Close :: r' => firsts r' fol c
  end.

(** Patterns where a greedy repetition or option is never followed by a
    character of its own set, so that backtracking into it cannot help. *)
Fixpoint unamb (r : regex) (fol : ascii -> bool) : bool :=
  match r with
  | [] => true
  | Star p :: r' | Opt p :: r' =>
      forallb (fun c => negb (mem p c && firsts r' fol c)) all_ascii
      && unamb r' fol
  | Lazy _ :: _ => false
  | _ :: r' => unamb r' fol
  end.

Definition any_char (c : ascii) : bool := true.

(** The first character of [s], if any, satisfies [fol]. *)
Definition starts_with (fol : ascii -> bool) (s : str) : bool :=
  match s with
  | c :: _ => fol c
  | [] => true
  end.


(** The number a numeral denotes once the commas are dropped. *)
Definition numeral_value (n : str) : Z :=
  fold_left (fun acc c => if is_digit c then 10 * acc + digit_val c else acc) n 0.


(** The characters of [s] other than the currency symbol and the grouping
    comma, in order. *)
Definition sin_simbolos (s : str) : str :=
  List.filter (fun c => negb (ascii_eqb c "$" || ascii_eqb c ",")) s.


(** ** Vocabulary of the statements about [extraer_datos_pdf] *)

(** The patterns searched by the statements of the [try] block, and the
    keys each statement assigns, in source order. *)
Definition patrones : list regex :=
  [ patron_apertura; patron_cierre; patron_seccion_facturas; patron_efectivo;
    patron_datafono; patron_egresos; patron_diferencia ].

Definition claves_pasos : list (list string) :=
  [ ["Apertura"]; ["Cierre"]; ["V_Bruta"; "Total"]; ["Efectivo"];
    ["Datafono"]; ["Total_Egresos"]; ["Diferencia"] ]%string.

Definition claves_tiempo : list string := ["Apertura"; "Cierre"]%string.
Definition claves_monetarias : list string :=
  ["V_Bruta"; "Total"; "Efectivo"; "Datafono"; "Total_Egresos"; "Diferencia"]%string.

Definition es_str (v : option valor) : bool :=
  match v with Some (VStr _) => true | _ => false end.

Definition es_int_no_negativo (v : option valor) : bool :=
  match v with Some (VInt z) => 0 <=? z | _ => false end.

(** The record has exactly the eight keys, a [str] under the two time keys
    and a non-negative [int] under the six monetary keys. *)
Definition registro_completo (d : datos) : bool :=
  bool_decide (dom d = list_to_set (claves_tiempo ++ claves_monetarias))
  && forallb (fun k => es_str (d !! k)) claves_tiempo
  && forallb (fun k => es_int_no_negativo (d !! k)) claves_monetarias.

(** A statement assigns no key outside [ks]. *)
Definition escribe (ks : list string) (s : stmt) : Prop :=
  forall d k, ~ In k ks -> (s d).2 !! k = d !! k.



(** The text of an uploaded file cannot be obtained. *)
Definition falla (a : archivo) : bool :=
  match abrir a with
  | inl _ => true
  | inr paginas => match leer_paginas [] paginas with inl _ => true | inr _ => false end
  end.

(** The text [procesar_pdf] passes to the extractor. *)
Definition texto_de (a : archivo) : str :=
  match abrir a with
  | inr paginas => match leer_paginas [] paginas with inr t => t | inl _ => [] end
  | inl _ => []
  end.

(** A statement keeps the record complete, whether it raises or not. *)
Definition conserva (s : stmt) : Prop :=
  forall d, registro_completo d = true -> registro_completo (s d).2 = true.

(** [re.search(pat, texto)] is [None]. *)
Definition ausente (pat : regex) (texto : str) : bool :=
  match search pat texto with Some _ => false | None => true end.

(** The record the batch loop appends for a file whose text was obtained. *)
Definition registro_de (a : archivo) : datos :=
  <["Archivo" := VStr (name a)]> (extraer_datos_pdf (texto_de a)).1.

Definition exitoso (a : archivo) : bool := negb (falla a).


(** ** Vocabulary of the further properties *)

(** The first [i] statements of the [try] block complete on [texto]. *)
Definition completan (i : nat) (texto : str) : bool :=
  match secuencia (take i (pasos texto)) datos_iniciales with
  | (None, _) => true
  | (Some _, _) => false
  end.


(** A statement whose outcome and assigned values do not depend on the
    dict it runs on. *)
Definition uniforme (s : stmt) : Prop :=
  forall d d' : datos,
    (s d).1 = (s d').1 /\
    forall k : string, d !! k = d' !! k -> (s d).2 !! k = (s d').2 !! k.

(** ** The results shown after the batch loop *)

(** [columnas_orden] of the results view. *)
Definition columnas_orden : list string :=
  ["Archivo"; "Apertura"; "Cierre"; "V_Bruta"; "Total"; "Efectivo"; "Datafono";
   "Total_Egresos"; "Diferencia"]%string.

(** The columns of [pd.DataFrame(filas)]: the keys of the dicts.  A dict
    without one of them has a missing cell in that column. *)
Definition columnas (filas : list datos) : gset string :=
  union_list (map (fun d : datos => dom d) filas).

(** [df[cols]]: [None] stands for the [KeyError] raised when a requested
    column is not a column of the frame; a cell is [None] when missing. *)
Definition seleccionar (cols : list string) (filas : list datos)
    : option (list (list (option valor))) :=
  if forallb (fun k => bool_decide (k ∈ columnas filas)) cols
  then Some (map (fun d : datos => map (fun k => d !! k) cols) filas)
  else None.

(** [sep.join(l)] *)
Definition join (sep : str) (l : list str) : str :=
  match l with
  | [] => []
  | x :: l' => x ++ concat (map (fun y => sep ++ y) l')
  end.

(** What is shown once the loop has ended: the table with the two counts of
    the success message and the warning naming the failed files, or the
    message that nothing could be processed. *)
Inductive vista :=
| Completado (tabla : list (list (option valor))) (procesados de : nat)
             (advertencia : option str)
| Sin_resultados.

(** The branch [if resultados: ... else: ...] after the loop; [None] stands
    for the [KeyError] of the column selection. *)
Definition mostrar_resultados (l : lote) (uploaded_files : list archivo)
    : option vista :=
  match resultados l with
  | [] => Some Sin_resultados
  | _ :: _ =>
      match seleccionar columnas_orden (resultados l) with
      | None => None
      | Some df =>
          Some (Completado df (length (resultados l)) (length uploaded_files)
                  match errores l with
                  | [] => None
                  | _ :: _ => Some (join (lit ", ") (errores l))
                  end)
      end
  end.

Definition es_al_procesar (msg : mensaje) : bool :=
  match msg with Error_al_procesar _ => true | Error_al_extraer _ => false end.

(** ** The thousands format of the metrics *)

(** The character of a decimal digit. *)
Definition digito (k : Z) : ascii := ascii_of_N (Z.to_N (48 + k)).

(** The decimal digits of a non-negative number, least significant first. *)
Fixpoint digitos_inv (fuel : nat) (n : Z) : str :=
  match fuel with
  | O => []
  | S f =>
      if n <? 10 then [digito n]
      else digito (n mod 10) :: digitos_inv f (n / 10)
  end.

(** A comma after every third digit that has a digit after it. *)
Fixpoint agrupar (l : str) : str :=
  match l with
  | a :: ((b :: (c :: ((_ :: _) as r))) ) => a :: b :: c :: ","%char :: agrupar r
  | _ => l
  end.

(** [f"{n:,}"] for an [int] *)
Definition formato_miles (n : Z) : str :=
  if n <? 0
  then "-"%char :: rev (agrupar (digitos_inv (S (Z.to_nat (Z.log2 (- n)))) (- n)))
  else rev (agrupar (digitos_inv (S (Z.to_nat (Z.log2 n))) n)).


(* ===================================================================== *)
(** * Properties of the matcher *)

Lemma or_else_Some {A} (x y : option A) (a : A) :
  x = Some a -> or_else x y = Some a.
Proof. intros ->. reflexivity. Qed.

Lemma or_else_None {A} (x y : option A) :
  x = None -> or_else x y = y.
Proof. intros ->. reflexivity. Qed.

Lemma or_else_inv {A} (x y : option A) (a : A) :
  or_else x y = Some a -> x = Some a \/ (x = None /\ y = Some a).
Proof. destruct x; simpl; intros H; [left | right]; auto. Qed.

(** Unfolding equations of the two loops. *)
Lemma m_star_eq p r s st :
  m (Star p :: r) s st =
  or_else
    match s with
    | c :: s' => if mem p c then m (Star p :: r) s' (push c st) else None
    | [] => None
    end
    (m r s st).
Proof. destruct s; reflexivity. Qed.

Lemma m_lazy_eq p r s st :
  m (Lazy p :: r) s st =
  or_else (m r s st)
    match s with
    | c :: s' => if mem p c then m (Lazy p :: r) s' (push c st) else None
    | [] => None
    end.
Proof. destruct s; reflexivity. Qed.

Lemma m_nil_eq s st : m [] s st = Some (Match (closed st) s).
Proof. reflexivity. Qed.

Lemma m_one_eq p r s st :
  m (One p :: r) s st =
  match s with
  | c :: s' => if mem p c then m r s' (push c st) else None
  | [] => None
  end.
Proof. reflexivity. Qed.

Lemma m_opt_eq p r s st :
  m (Opt p :: r) s st =
  or_else
    match s with
    | c :: s' => if mem p c then m r s' (push c st) else None
    | [] => None
    end
    (m r s st).
Proof. reflexivity. Qed.

Lemma m_open_eq r s st : m (Open :: r) s st = m r s (open_group st).
Proof. reflexivity. Qed.

Lemma m_close_eq r s st : m (Close :: r) s st = m r s (close_group st).
Proof. reflexivity. Qed.

Arguments m : simpl never.

(** Every result of the matcher is a match in the declarative sense. *)
Lemma m_sound r : forall s st mo,
  m r s st = Some mo ->
  exists s1 st', s = s1 ++ rest mo /\ Matches r s1 st st' /\ groups mo = closed st'.
Proof.
  induction r as [|it r IH]; intros s st mo H.
  - rewrite m_nil_eq in H. injection H as <-.
    exists [], st. simpl. repeat split. constructor.
  - destruct it as [p|p|p|p| |].
    + rewrite m_one_eq in H. destruct s as [|c s]; [discriminate|].
      destruct (mem p c) eqn:Hc; [|discriminate].
      apply IH in H as (s1 & st' & -> & HM & Hg).
      exists (c :: s1), st'. repeat split; auto. constructor; auto.
    + revert st H. induction s as [|c s IHs]; intros st H;
        rewrite m_star_eq in H; apply or_else_inv in H as [H|[_ H]];
        try discriminate.
      * apply IH in H as (s1 & st' & E & HM & Hg).
        exists s1, st'. repeat split; auto. now apply M_star_stop.
      * destruct (mem p c) eqn:Hc; [|discriminate].
        apply IHs in H as (s1 & st' & E & HM & Hg).
        exists (c :: s1), st'. simpl. rewrite <- E. repeat split; auto.
        now apply M_star_step.
      * apply IH in H as (s1 & st' & E & HM & Hg).
        exists s1, st'. repeat split; auto. now apply M_star_stop.
    + revert st H. induction s as [|c s IHs]; intros st H;
        rewrite m_lazy_eq in H; apply or_else_inv in H as [H|[_ H]];
        try discriminate.
      * apply IH in H as (s1 & st' & E & HM & Hg).
        exists s1, st'. repeat split; auto. now apply M_lazy_stop.
      * apply IH in H as (s1 & st' & E & HM & Hg).
        exists s1, st'. repeat split; auto. now apply M_lazy_stop.
      * destruct (mem p c) eqn:Hc; [|discriminate].
        apply IHs in H as (s1 & st' & E & HM & Hg).
        exists (c :: s1), st'. simpl. rewrite <- E. repeat split; auto.
        now apply M_lazy_step.
    + rewrite m_opt_eq in H. apply or_else_inv in H as [H|[_ H]].
      * destruct s as [|c s]; [discriminate|].
        destruct (mem p c) eqn:Hc; [|discriminate].
        apply IH in H as (s1 & st' & -> & HM & Hg).
        exists (c :: s1), st'. repeat split; auto. now apply M_opt_take.
      * apply IH in H as (s1 & st' & E & HM & Hg).
        exists s1, st'. repeat split; auto. now apply M_opt_skip.
    + rewrite m_open_eq in H. apply IH in H as (s1 & st' & E & HM & Hg).
      exists s1, st'. repeat split; auto. now apply M_open.
    + rewrite m_close_eq in H. apply IH in H as (s1 & st' & E & HM & Hg).
      exists s1, st'. repeat split; auto. now apply M_close.
Qed.

(** Wherever the pattern has a match the matcher finds one, whatever the
    capture state and whatever follows. *)
Lemma m_complete r s1 st st' :
  Matches r s1 st st' -> forall s2 st2, is_Some (m r (s1 ++ s2) st2).
Proof.
  induction 1 as [st|p r c s st st' Hc _ IH|p r s st st' _ IH
                 |p r c s st st' Hc _ IH|p r s st st' _ IH
                 |p r c s st st' Hc _ IH|p r s st st' _ IH
                 |p r c s st st' Hc _ IH|r s st st' _ IH|r s st st' _ IH];
    intros s2 st2; try change ((c :: s) ++ s2) with (c :: (s ++ s2)).
  - rewrite m_nil_eq. eauto.
  - rewrite m_one_eq, Hc. apply IH.
  - rewrite m_opt_eq. destruct (IH s2 st2) as [x Hx]. rewrite Hx.
    destruct (match s ++ s2 with [] => None | c :: s' => _ end); simpl; eauto.
  - rewrite m_opt_eq, Hc. destruct (IH s2 (push c st2)) as [x ->]. simpl. eauto.
  - rewrite m_star_eq. destruct (IH s2 st2) as [x Hx]. rewrite Hx.
    destruct (match s ++ s2 with [] => None | c :: s' => _ end); simpl; eauto.
  - rewrite m_star_eq, Hc.
    destruct (IH s2 (push c st2)) as [x ->]. simpl. eauto.
  - rewrite m_lazy_eq. destruct (IH s2 st2) as [x ->]. simpl. eauto.
  - rewrite m_lazy_eq, Hc.
    destruct (IH s2 (push c st2)) as [x ->].
    destruct (m r (c :: s ++ s2) st2); simpl; eauto.
  - rewrite m_open_eq. apply IH.
  - rewrite m_close_eq. apply IH.
Qed.

(** *** Structure of declarative matches *)

Lemma Matches_star_inv p r s st st' :
  Matches (Star p :: r) s st st' ->
  exists w s', s = w ++ s' /\ forallb (mem p) w = true /\
               Matches r s' (pushl w st) st'.
Proof.
  remember (Star p :: r) as r0 eqn:E. induction 1; try discriminate.
  - injection E as -> ->. exists [], s. auto.
  - injection E as -> ->.
    destruct IHMatches as (w & s' & -> & Hw & HM); [reflexivity|].
    exists (c :: w), s'. simpl. rewrite H, Hw. auto.
Qed.

Lemma Matches_lazy_inv p r s st st' :
  Matches (Lazy p :: r) s st st' ->
  exists w s', s = w ++ s' /\ forallb (mem p) w = true /\
               Matches r s' (pushl w st) st'.
Proof.
  remember (Lazy p :: r) as r0 eqn:E. induction 1; try discriminate.
  - injection E as -> ->. exists [], s. auto.
  - injection E as -> ->.
    destruct IHMatches as (w & s' & -> & Hw & HM); [reflexivity|].
    exists (c :: w), s'. simpl. rewrite H, Hw. auto.
Qed.

Lemma Matches_star_intro p r w : forall s st st',
  forallb (mem p) w = true -> Matches r s (pushl w st) st' ->
  Matches (Star p :: r) (w ++ s) st st'.
Proof.
  induction w as [|c w IH]; intros s st st' Hw HM.
  - now apply M_star_stop.
  - simpl in Hw. apply andb_prop in Hw as [Hc Hw].
    simpl. apply M_star_step; auto.
Qed.

Lemma Matches_lazy_intro p r w : forall s st st',
  forallb (mem p) w = true -> Matches r s (pushl w st) st' ->
  Matches (Lazy p :: r) (w ++ s) st st'.
Proof.
  induction w as [|c w IH]; intros s st st' Hw HM.
  - now apply M_lazy_stop.
  - simpl in Hw. apply andb_prop in Hw as [Hc Hw].
    simpl. apply M_lazy_step; auto.
Qed.

Lemma Matches_app r1 r2 s1 s2 st stm st' :
  Matches r1 s1 st stm -> Matches r2 s2 stm st' ->
  Matches (r1 ++ r2) (s1 ++ s2) st st'.
Proof.
  induction 1; intros H2; simpl; try (constructor; auto; fail); auto.
Qed.

Lemma Matches_nil_inv s st st' : Matches [] s st st' -> s = [] /\ st' = st.
Proof. inversion 1; auto. Qed.

Lemma Matches_one_inv p r s st st' :
  Matches (One p :: r) s st st' ->
  exists c s', s = c :: s' /\ mem p c = true /\ Matches r s' (push c st) st'.
Proof. inversion 1; subst; eauto. Qed.

Lemma Matches_opt_inv p r s st st' :
  Matches (Opt p :: r) s st st' ->
  Matches r s st st' \/
  exists c s', s = c :: s' /\ mem p c = true /\ Matches r s' (push c st) st'.
Proof. inversion 1; subst; eauto 6. Qed.

Lemma Matches_open_inv r s st st' :
  Matches (Open :: r) s st st' -> Matches r s (open_group st) st'.
Proof. inversion 1; subst; auto. Qed.

Lemma Matches_close_inv r s st st' :
  Matches (Close :: r) s st st' -> Matches r s (close_group st) st'.
Proof. inversion 1; subst; auto. Qed.

Lemma Matches_app_inv r1 r2 : forall s st st',
  Matches (r1 ++ r2) s st st' ->
  exists s1 s2 stm, s = s1 ++ s2 /\ Matches r1 s1 st stm /\ Matches r2 s2 stm st'.
Proof.
  induction r1 as [|it r1 IH]; intros s st st' H.
  - exists [], s, st. repeat split; auto. constructor.
  - simpl in H. destruct it as [p|p|p|p| |].
    + apply Matches_one_inv in H as (c & s' & -> & Hc & H).
      apply IH in H as (s1 & s2 & stm & -> & H1 & H2).
      exists (c :: s1), s2, stm. repeat split; auto. now constructor.
    + apply Matches_star_inv in H as (w & s' & -> & Hw & H).
      apply IH in H as (s1 & s2 & stm & -> & H1 & H2).
      exists (w ++ s1), s2, stm. rewrite app_assoc. repeat split; auto.
      now apply Matches_star_intro.
    + apply Matches_lazy_inv in H as (w & s' & -> & Hw & H).
      apply IH in H as (s1 & s2 & stm & -> & H1 & H2).
      exists (w ++ s1), s2, stm. rewrite app_assoc. repeat split; auto.
      now apply Matches_lazy_intro.
    + apply Matches_opt_inv in H as [H|(c & s' & -> & Hc & H)].
      * apply IH in H as (s1 & s2 & stm & -> & H1 & H2).
        exists s1, s2, stm. repeat split; auto. now apply M_opt_skip.
      * apply IH in H as (s1 & s2 & stm & -> & H1 & H2).
        exists (c :: s1), s2, stm. repeat split; auto. now apply M_opt_take.
    + apply Matches_open_inv in H.
      apply IH in H as (s1 & s2 & stm & -> & H1 & H2).
      exists s1, s2, stm. repeat split; auto. now constructor.
    + apply Matches_close_inv in H.
      apply IH in H as (s1 & s2 & stm & -> & H1 & H2).
      exists s1, s2, stm. repeat split; auto. now constructor.
Qed.

(** Whether a pattern matches does not depend on the capture state. *)
Lemma Matches_any_state r s st st' :
  Matches r s st st' -> forall st2, exists st2', Matches r s st2 st2'.
Proof.
  induction 1; intros st2.
  - eexists; constructor.
  - destruct (IHMatches (push c st2)) as [x Hx]. eexists; constructor; eauto.
  - destruct (IHMatches st2) as [x Hx]. eexists; apply M_opt_skip; eauto.
  - destruct (IHMatches (push c st2)) as [x Hx]. eexists; apply M_opt_take; eauto.
  - destruct (IHMatches st2) as [x Hx]. eexists; apply M_star_stop; eauto.
  - destruct (IHMatches (push c st2)) as [x Hx]. eexists; apply M_star_step; eauto.
  - destruct (IHMatches st2) as [x Hx]. eexists; apply M_lazy_stop; eauto.
  - destruct (IHMatches (push c st2)) as [x Hx]. eexists; apply M_lazy_step; eauto.
  - destruct (IHMatches (open_group st2)) as [x Hx]. eexists; constructor; eauto.
  - destruct (IHMatches (close_group st2)) as [x Hx]. eexists; constructor; eauto.
Qed.

Lemma match_at_true r s :
  match_at r s = true <-> exists s1 s2, s = s1 ++ s2 /\ matches r s1.
Proof.
  unfold match_at, matches. split.
  - destruct (m r s caps0) as [mo|] eqn:E; [|discriminate]. intros _.
    apply m_sound in E as (s1 & st' & -> & HM & _). eauto.
  - intros (s1 & s2 & -> & st' & HM).
    destruct (m_complete _ _ _ _ HM s2 caps0) as [x ->]. reflexivity.
Qed.

Lemma m_None_any_state r s st st2 :
  m r s st = None -> m r s st2 = None.
Proof.
  intros H. destruct (m r s st2) as [mo|] eqn:E; [|reflexivity].
  apply m_sound in E as (s1 & st' & -> & HM & _).
  destruct (m_complete _ _ _ _ HM (rest mo) st) as [x Hx]. congruence.
Qed.

Lemma match_at_false r s st : match_at r s = false -> m r s st = None.
Proof.
  unfold match_at. destruct (m r s caps0) eqn:E; [discriminate|].
  intros _. eapply m_None_any_state; eauto.
Qed.

(** A pattern cannot match where its first part does not. *)
Lemma match_at_app_false r1 r2 s :
  match_at r1 s = false -> match_at (r1 ++ r2) s = false.
Proof.
  intros H. destruct (match_at (r1 ++ r2) s) eqn:E; [|reflexivity].
  apply match_at_true in E as (s1 & s2 & -> & st' & HM).
  apply Matches_app_inv in HM as (u & v & stm & -> & H1 & _).
  assert (match_at r1 ((u ++ v) ++ s2) = true) as E'; [|congruence].
  apply match_at_true. exists u, (v ++ s2). rewrite app_assoc.
  split; [reflexivity|]. now exists stm.
Qed.

(** *** [re.search] *)

Lemma search_eq r s :
  search r s =
  or_else (m r s caps0) match s with [] => None | _ :: s' => search r s' end.
Proof. destruct s; reflexivity. Qed.

Lemma search_here r s mo : m r s caps0 = Some mo -> search r s = Some mo.
Proof. intros H. rewrite search_eq, H. reflexivity. Qed.

Lemma search_skip r pre : forall s,
  no_start_in r pre s = true -> search r (pre ++ s) = search r s.
Proof.
  induction pre as [|c pre IH]; intros s H; [reflexivity|].
  simpl in H. apply andb_prop in H as [H1 H2].
  apply negb_true_iff in H1.
  change ((c :: pre) ++ s) with (c :: (pre ++ s)) in *.
  rewrite search_eq, (match_at_false _ _ caps0 H1). simpl. auto.
Qed.

Lemma search_sound r : forall s mo,
  search r s = Some mo ->
  exists pre q, s = pre ++ q /\ m r q caps0 = Some mo.
Proof.
  induction s as [|c s IH]; intros mo H; rewrite search_eq in H;
    apply or_else_inv in H as [H|[_ H]]; try discriminate.
  - exists [], []. auto.
  - exists [], (c :: s). auto.
  - apply IH in H as (pre & q & -> & H). exists (c :: pre), q. auto.
Qed.

Lemma search_None r : forall pre q,
  search r (pre ++ q) = None -> match_at r q = false.
Proof.
  induction pre as [|c pre IH]; intros q H.
  - simpl in H. rewrite search_eq in H. unfold match_at.
    destruct (m r q caps0); [discriminate|reflexivity].
  - change ((c :: pre) ++ q) with (c :: (pre ++ q)) in H.
    rewrite search_eq in H. destruct (m r (c :: pre ++ q) caps0); [discriminate|].
    simpl in H. auto.
Qed.

Lemma search_complete r pre q :
  match_at r q = true -> is_Some (search r (pre ++ q)).
Proof.
  intros H. destruct (search r (pre ++ q)) eqn:E; [eauto|].
  apply search_None in E. congruence.
Qed.

Lemma no_start_in_app r1 r2 a : forall b,
  no_start_in r1 a b = true -> no_start_in (r1 ++ r2) a b = true.
Proof.
  induction a as [|c a IH]; intros b H; [reflexivity|].
  simpl in *. apply andb_prop in H as [H1 H2]. apply negb_true_iff in H1.
  rewrite (match_at_app_false _ r2 _ H1). simpl. auto.
Qed.

(** *** Capture states *)

Lemma pushl_app w1 w2 st : pushl (w1 ++ w2) st = pushl w2 (pushl w1 st).
Proof. unfold pushl. apply fold_left_app. Qed.

Lemma pushl_None w cl : pushl w (Caps None cl) = Caps None cl.
Proof. induction w; simpl; auto. Qed.

Lemma pushl_Some w : forall acc cl,
  pushl w (Caps (Some acc) cl) = Caps (Some (rev w ++ acc)) cl.
Proof.
  induction w as [|c w IH]; intros acc cl; [reflexivity|].
  change (pushl (c :: w) (Caps (Some acc) cl))
    with (pushl w (Caps (Some (c :: acc)) cl)).
  rewrite IH. simpl. rewrite <- app_assoc. reflexivity.
Qed.

(** A pattern without groups only pushes what it reads. *)
Lemma Matches_plain r s st st' :
  Matches r s st st' -> plain r = true -> st' = pushl s st.
Proof.
  induction 1; simpl; intros Hp; try discriminate; auto.
Qed.

(** *** Which match the matcher returns *)

Lemma all_ascii_In c : In c all_ascii.
Proof.
  unfold all_ascii. apply in_map_iff. exists (nat_of_ascii c). split.
  - apply ascii_nat_embedding.
  - apply in_seq. pose proof (nat_ascii_bounded c). lia.
Qed.

Lemma firsts_head r s st st' :
  Matches r s st st' ->
  forall fol c t f, s ++ f = c :: t -> starts_with fol f = true ->
  firsts r fol c = true.
Proof.
  induction 1; intros fol c0 t f E Hf; simpl in *.
  - subst f. exact Hf.
  - injection E as -> _. assumption.
  - rewrite (IHMatches _ _ _ _ E Hf). apply orb_true_r.
  - injection E as -> _. rewrite H. reflexivity.
  - rewrite (IHMatches _ _ _ _ E Hf). apply orb_true_r.
  - injection E as -> _. rewrite H. reflexivity.
  - rewrite (IHMatches _ _ _ _ E Hf). apply orb_true_r.
  - injection E as -> _. rewrite H. reflexivity.
  - eauto.
  - eauto.
Qed.

(** With an unambiguous pattern, the greedy alternative the matcher tries
    first is closed as soon as a match of the rest exists. *)
Lemma greedy_closed p r s st st' fol f (A : Type) (g : ascii -> str -> option A) :
  forallb (fun c => negb (mem p c && firsts r fol c)) all_ascii = true ->
  Matches r s st st' -> starts_with fol f = true ->
  match s ++ f with
  | c :: s' => if mem p c then g c s' else None
  | [] => None
  end = None.
Proof.
  intros Hu HM Hf. destruct (s ++ f) as [|c t] eqn:E; [reflexivity|].
  destruct (mem p c) eqn:Hc; [|reflexivity].
  rewrite forallb_forall in Hu. specialize (Hu c (all_ascii_In c)).
  rewrite Hc, (firsts_head _ _ _ _ HM _ _ _ _ E Hf) in Hu. discriminate.
Qed.

Lemma m_det r s st st' :
  Matches r s st st' ->
  forall fol f k x, unamb r fol = true -> starts_with fol f = true ->
  m k f st' = Some x -> m (r ++ k) (s ++ f) st = Some x.
Proof.
  induction 1 as [st|p r c s st st' Hc HM IH|p r s st st' HM IH
                 |p r c s st st' Hc HM IH|p r s st st' HM IH
                 |p r c s st st' Hc HM IH|p r s st st' HM IH
                 |p r c s st st' Hc HM IH|r s st st' HM IH|r s st st' HM IH];
    intros fol f k x Hu0 Hf Hk; pose proof Hu0 as Hu; cbn [unamb] in Hu;
    try change ((c :: s) ++ f) with (c :: (s ++ f));
    try discriminate.
  - exact Hk.
  - change ((One p :: r) ++ k) with (One p :: (r ++ k)).
    rewrite m_one_eq, Hc. eauto.
  - apply andb_prop in Hu as [Hu1 Hu2].
    change ((Opt p :: r) ++ k) with (Opt p :: (r ++ k)). rewrite m_opt_eq.
    rewrite (greedy_closed _ _ _ _ _ _ _ _ _ Hu1 HM Hf). simpl. eauto.
  - apply andb_prop in Hu as [Hu1 Hu2].
    change ((Opt p :: r) ++ k) with (Opt p :: (r ++ k)).
    rewrite m_opt_eq, Hc. erewrite IH; eauto.
  - apply andb_prop in Hu as [Hu1 Hu2].
    change ((Star p :: r) ++ k) with (Star p :: (r ++ k)). rewrite m_star_eq.
    rewrite (greedy_closed _ _ _ _ _ _ _ _ _ Hu1 HM Hf). simpl. eauto.
  - change ((Star p :: r) ++ k) with (Star p :: (r ++ k)).
    rewrite m_star_eq, Hc.
    change (Star p :: (r ++ k)) with ((Star p :: r) ++ k).
    erewrite IH; eauto.
  - change ((Open :: r) ++ k) with (Open :: (r ++ k)). rewrite m_open_eq. eauto.
  - change ((Close :: r) ++ k) with (Close :: (r ++ k)). rewrite m_close_eq. eauto.
Qed.

Lemma ascii_eqb_refl c : ascii_eqb c c = true.
Proof. apply N.eqb_refl. Qed.

Lemma ascii_eqb_eq a b : ascii_eqb a b = true <-> a = b.
Proof.
  unfold ascii_eqb, code. rewrite N.eqb_eq. split; [|now intros ->].
  intros H. rewrite <- (ascii_N_embedding a), <- (ascii_N_embedding b).
  now rewrite H.
Qed.



Lemma Matches_lits l : forall st, Matches (lits l) l st (pushl l st).
Proof.
  induction l as [|c l IH]; intros st; simpl.
  - constructor.
  - constructor; [|apply IH]. simpl. now rewrite ascii_eqb_refl.
Qed.

Lemma Matches_lits_inv l : forall s st st',
  Matches (lits l) s st st' -> s = l.
Proof.
  induction l as [|c l IH]; intros s st st' H; simpl in H.
  - now apply Matches_nil_inv in H.
  - apply Matches_one_inv in H as (c' & s' & -> & Hc & H).
    simpl in Hc. rewrite orb_false_r in Hc. apply ascii_eqb_eq in Hc as ->.
    f_equal. eauto.
Qed.


Lemma plain_lits l : plain (lits l) = true.
Proof. induction l; simpl; auto. Qed.




(* ===================================================================== *)
(** * Properties of [str] methods, [int] and [limpiar_valor_monetario] *)

Lemma forall_ascii (P : ascii -> bool) :
  forallb P all_ascii = true -> forall c, P c = true.
Proof. intros H c. rewrite forallb_forall in H. apply H, all_ascii_In. Qed.

(** Facts about single characters, checked on the whole table. *)
Lemma char_table c :
  implb (is_digit c) (negb (is_space c)) = true /\
  implb (is_digit c) (negb (ascii_eqb c "$")) = true /\
  implb (is_digit c) (negb (ascii_eqb c ",")) = true /\
  implb (is_digit c) (negb (ascii_eqb c "-")) = true /\
  implb (is_digit c) (negb (ascii_eqb c "+")) = true /\
  implb (ascii_eqb c ",") (negb (ascii_eqb c "$")) = true /\
  implb (is_digit c) ((0 <=? digit_val c) && (digit_val c <=? 9)) = true.
Proof.
  repeat split; revert c; apply forall_ascii; vm_compute; reflexivity.
Qed.

Lemma digit_not_space c : is_digit c = true -> is_space c = false.
Proof.
  intros H. destruct (char_table c) as (T & _). rewrite H in T.
  now apply negb_true_iff in T.
Qed.

Lemma digit_val_range c : is_digit c = true -> 0 <= digit_val c <= 9.
Proof.
  intros H. destruct (char_table c) as (_ & _ & _ & _ & _ & _ & T).
  rewrite H in T. simpl in T. apply andb_prop in T as [T1 T2]. lia.
Qed.

Lemma replace_filter old s :
  replace old [] s = List.filter (fun c => negb (ascii_eqb c old)) s.
Proof.
  induction s as [|c s IH]; [reflexivity|].
  unfold replace in *. simpl. destruct (ascii_eqb c old); simpl; now rewrite IH.
Qed.

Lemma filter_id {A} (f : A -> bool) l :
  forallb f l = true -> List.filter f l = l.
Proof.
  induction l as [|a l IH]; simpl; [reflexivity|].
  intros H. apply andb_prop in H as [-> H]. now rewrite IH.
Qed.

Lemma forallb_imp {A} (f g : A -> bool) l :
  (forall a, f a = true -> g a = true) ->
  forallb f l = true -> forallb g l = true.
Proof. rewrite !forallb_forall. auto. Qed.

Lemma forallb_rev {A} (f : A -> bool) l :
  forallb f l = true -> forallb f (rev l) = true.
Proof. rewrite !forallb_forall. intros H x Hx. apply H. now apply in_rev. Qed.

Lemma lstrip_digits t : forallb is_digit t = true -> lstrip t = t.
Proof.
  destruct t as [|c t]; [reflexivity|]. simpl. intros H.
  apply andb_prop in H as [H _]. now rewrite (digit_not_space _ H).
Qed.

Lemma strip_digits t : forallb is_digit t = true -> strip t = t.
Proof.
  intros H. unfold strip, rstrip. rewrite (lstrip_digits _ H).
  rewrite lstrip_digits by now apply forallb_rev. apply rev_involutive.
Qed.

(** What [limpiar_valor_monetario] leaves of a captured numeral. *)
Lemma limpiar_captura n :
  forallb (mem DigitComma) n = true -> n <> [] ->
  limpiar_valor_monetario (Some n) = List.filter is_digit n.
Proof.
  intros Hn Hne. destruct n as [|c0 n0]; [congruence|].
  unfold limpiar_valor_monetario. set (n := c0 :: n0) in *. clearbody n.
  rewrite !replace_filter.
  rewrite (filter_id (fun c => negb (ascii_eqb c "$")) n).
  2:{ revert Hn. apply forallb_imp. intros c Hc. simpl in Hc.
      destruct (char_table c) as (_ & T1 & _ & _ & _ & T2 & _).
      destruct (is_digit c); simpl in *; auto. rewrite Hc in T2. auto. }
  assert (List.filter (fun c => negb (ascii_eqb c ",")) n = List.filter is_digit n)
    as ->.
  { clear Hne. induction n as [|c n IH]; [reflexivity|]. simpl in Hn.
    apply andb_prop in Hn as [Hc Hn]. simpl. rewrite (IH Hn).
    destruct (char_table c) as (_ & _ & T & _).
    destruct (is_digit c); simpl in *.
    - now rewrite T.
    - now rewrite Hc. }
  apply strip_digits. clear. induction n as [|c n IH]; [reflexivity|].
  simpl. destruct (is_digit c) eqn:E; simpl; [rewrite E|]; auto.
Qed.

Lemma int_digits_digits t : forall acc prev,
  forallb is_digit t = true -> t <> [] ->
  int_digits acc prev t =
  Some (fold_left (fun a c => 10 * a + digit_val c) t acc).
Proof.
  induction t as [|c t IH]; intros acc prev H Hne; [congruence|].
  simpl in H. apply andb_prop in H as [Hc H]. simpl. rewrite Hc.
  destruct t as [|c' t']; [reflexivity|]. now apply IH.
Qed.

Lemma int_digits_string t :
  forallb is_digit t = true -> t <> [] ->
  int t = inr (fold_left (fun a c => 10 * a + digit_val c) t 0).
Proof.
  intros H Hne. unfold int. rewrite (strip_digits _ H).
  destruct t as [|c t']; [congruence|]. set (t := c :: t') in *.
  assert (is_digit c = true) as Hc by (simpl in H; now apply andb_prop in H).
  destruct (char_table c) as (_ & _ & _ & T1 & T2 & _).
  rewrite Hc in T1, T2. simpl in T1, T2.
  apply negb_true_iff in T1, T2. rewrite T1, T2.
  now rewrite int_digits_digits.
Qed.

Lemma int_empty : int [] = inl (ValueError []).
Proof. reflexivity. Qed.

Lemma numeral_value_filter n : forall acc,
  fold_left (fun a c => 10 * a + digit_val c) (List.filter is_digit n) acc =
  fold_left (fun a c => if is_digit c then 10 * a + digit_val c else a) n acc.
Proof.
  induction n as [|c n IH]; intros acc; [reflexivity|].
  simpl. destruct (is_digit c); simpl; apply IH.
Qed.

Lemma filter_digits_nil n :
  List.filter is_digit n = [] <-> existsb is_digit n = false.
Proof.
  induction n as [|c n IH]; simpl; [tauto|].
  destruct (is_digit c); simpl; [split; discriminate|exact IH].
Qed.

Lemma forallb_filter_same {A} (f : A -> bool) l :
  forallb f (List.filter f l) = true.
Proof.
  induction l as [|a l IH]; [reflexivity|]. simpl.
  destruct (f a) eqn:E; simpl; [rewrite E|]; auto.
Qed.

(** The integer conversion of a capture of [[\d,]+]: its value when it has
    a digit, [ValueError] when it is made of commas only. *)
Lemma int_limpiar_captura n :
  forallb (mem DigitComma) n = true -> n <> [] ->
  int (limpiar_valor_monetario (Some n)) =
  if existsb is_digit n then inr (numeral_value n) else inl (ValueError []).
Proof.
  intros Hn Hne. rewrite (limpiar_captura _ Hn Hne).
  destruct (existsb is_digit n) eqn:E.
  - rewrite int_digits_string.
    + now rewrite numeral_value_filter.
    + apply forallb_filter_same.
    + intros F. apply filter_digits_nil in F. congruence.
  - apply filter_digits_nil in E. now rewrite E.
Qed.

Lemma numeral_fold_nonneg n : forall acc,
  0 <= acc ->
  0 <= fold_left (fun a c => if is_digit c then 10 * a + digit_val c else a) n acc.
Proof.
  induction n as [|c n IH]; intros acc Hacc; simpl; [lia|].
  apply IH. destruct (is_digit c) eqn:E; [|lia].
  pose proof (digit_val_range _ E). lia.
Qed.

Lemma numeral_value_nonneg n : 0 <= numeral_value n.
Proof. apply numeral_fold_nonneg. lia. Qed.

Lemma replace_replace s :
  replace "," [] (replace "$" [] s) = sin_simbolos s.
Proof.
  rewrite !replace_filter. unfold sin_simbolos.
  induction s as [|c s IH]; [reflexivity|]. simpl.
  destruct (ascii_eqb c "$"); simpl; [exact IH|].
  destruct (ascii_eqb c ","); simpl; [exact IH|]. now rewrite IH.
Qed.

Lemma space_not_digit c : is_space c = true -> is_digit c = false.
Proof.
  intros H. destruct (is_digit c) eqn:E; [|reflexivity].
  apply digit_not_space in E. congruence.
Qed.

Lemma lstrip_keeps_digits t :
  List.filter is_digit (lstrip t) = List.filter is_digit t.
Proof.
  induction t as [|c t IH]; [reflexivity|]. simpl.
  destruct (is_space c) eqn:E; [|reflexivity].
  now rewrite (space_not_digit _ E).
Qed.

Lemma strip_keeps_digits t :
  List.filter is_digit (strip t) = List.filter is_digit t.
Proof.
  unfold strip, rstrip.
  rewrite List.filter_rev, lstrip_keeps_digits, <- List.filter_rev, rev_involutive.
  apply lstrip_keeps_digits.
Qed.

Lemma sin_simbolos_keeps_digits s :
  List.filter is_digit (sin_simbolos s) = List.filter is_digit s.
Proof.
  unfold sin_simbolos. induction s as [|c s IH]; [reflexivity|]. simpl.
  destruct (char_table c) as (_ & T1 & T2 & _).
  destruct (is_digit c) eqn:E; simpl in *.
  - apply negb_true_iff in T1, T2. rewrite T1, T2. simpl. now rewrite E, IH.
  - destruct (ascii_eqb c "$" || ascii_eqb c ","); simpl; [|rewrite E]; exact IH.
Qed.


Lemma lstrip_no_space_head t : starts_with (fun c => negb (is_space c)) (lstrip t) = true.
Proof.
  induction t as [|c t IH]; [reflexivity|]. simpl.
  destruct (is_space c) eqn:E; [exact IH|]. simpl. now rewrite E.
Qed.

Lemma lstrip_suffix t : exists w, t = w ++ lstrip t /\ forallb is_space w = true.
Proof.
  induction t as [|c t (w & E & Hw)]; [now exists []|]. simpl.
  destruct (is_space c) eqn:Hc.
  - exists (c :: w). simpl. rewrite Hc, Hw. split; [now f_equal|reflexivity].
  - now exists [].
Qed.

Lemma strip_decomp t :
  exists w1 w2, t = w1 ++ strip t ++ w2 /\
                forallb is_space w1 = true /\ forallb is_space w2 = true.
Proof.
  destruct (lstrip_suffix t) as (w1 & E1 & H1).
  destruct (lstrip_suffix (rev (lstrip t))) as (w2 & E2 & H2).
  exists w1, (rev w2). unfold strip, rstrip. repeat split; auto.
  - rewrite <- rev_app_distr, <- E2, rev_involutive. exact E1.
  - now apply forallb_rev.
Qed.

Lemma strip_no_space_ends t :
  starts_with (fun c => negb (is_space c)) (strip t) = true /\
  starts_with (fun c => negb (is_space c)) (rev (strip t)) = true.
Proof.
  split.
  - unfold strip. pose proof (lstrip_no_space_head t) as H.
    set (u := lstrip t) in *. clearbody u.
    destruct (lstrip_suffix (rev u)) as (w & E & _). unfold rstrip.
    apply (f_equal (@rev ascii)) in E. rewrite rev_involutive, rev_app_distr in E.
    destruct (rev (lstrip (rev u))) as [|c v]; [reflexivity|].
    rewrite E in H. exact H.
  - unfold strip, rstrip. rewrite rev_involutive. apply lstrip_no_space_head.
Qed.


(** C4.  For a currency string with a leading [$], the normalizer returns
    the characters of the string without any [$], any [,] and the
    surrounding whitespace: the digits are kept in order, no symbol is left
    and no whitespace is left at either end.  The transform is a total
    function of its argument. *)
Theorem limpiar_valor_monetario_moneda (s' : str) :
  let s := "$"%char :: s' in
  let r := limpiar_valor_monetario (Some s) in
  r = strip (sin_simbolos s) /\
  List.filter is_digit r = List.filter is_digit s /\
  forallb (fun c => negb (ascii_eqb c "$" || ascii_eqb c ",")) r = true /\
  starts_with (fun c => negb (is_space c)) r = true /\
  starts_with (fun c => negb (is_space c)) (rev r) = true.
Proof.
  intros s r.
  assert (r = strip (sin_simbolos s)) as E.
  { unfold r, s, limpiar_valor_monetario. now rewrite replace_replace. }
  rewrite E. split; [reflexivity|]. split; [|split].
  - now rewrite strip_keeps_digits, sin_simbolos_keeps_digits.
  - destruct (strip_decomp (sin_simbolos s)) as (w1 & w2 & D & _ & _).
    pose proof (forallb_filter_same
                  (fun c => negb (ascii_eqb c "$" || ascii_eqb c ",")) s) as F.
    fold (sin_simbolos s) in F. rewrite D, !forallb_app in F.
    now apply andb_prop in F as [_ [F _]%andb_prop].
  - apply strip_no_space_ends.
Qed.




(* ===================================================================== *)
(** * What the patterns capture *)

Lemma closed_push c st : closed (push c st) = closed st.
Proof. unfold push. destruct (cur st); reflexivity. Qed.

(** The group of [\$?([\d,]+)] is a non-empty string of digits and commas. *)
Lemma Matches_monto_grupo s st st' :
  Matches [Open; One DigitComma; Star DigitComma; Close] s st st' ->
  exists n, st' = Caps None (closed st ++ [n]) /\ n <> [] /\
            forallb (mem DigitComma) n = true.
Proof.
  intros HM. apply Matches_open_inv in HM.
  apply Matches_one_inv in HM as (c & s2 & _ & Hc & HM).
  apply Matches_star_inv in HM as (w & s3 & _ & Hw & HM).
  apply Matches_close_inv in HM. apply Matches_nil_inv in HM as [_ ->].
  exists (c :: w). split; [|split].
  - unfold open_group, push. simpl. rewrite pushl_Some. unfold close_group.
    simpl. now rewrite rev_app_distr, rev_involutive.
  - discriminate.
  - change (forallb (mem DigitComma) (c :: w))
      with (mem DigitComma c && forallb (mem DigitComma) w).
    now rewrite Hc, Hw.
Qed.

Lemma Matches_monto s st st' :
  Matches monto s st st' ->
  exists n, st' = Caps None (closed st ++ [n]) /\ n <> [] /\
            forallb (mem DigitComma) n = true.
Proof.
  unfold monto. intros H.
  apply Matches_opt_inv in H as [H|(c & s' & -> & Hc & H)].
  - now apply Matches_monto_grupo in H.
  - apply Matches_monto_grupo in H. now rewrite closed_push in H.
Qed.

Lemma Matches_plain_monto P k s cl st' :
  plain P = true -> Matches (P ++ monto ++ k) s (Caps None cl) st' ->
  exists n s2, n <> [] /\ forallb (mem DigitComma) n = true /\
               Matches k s2 (Caps None (cl ++ [n])) st'.
Proof.
  intros HP H.
  apply Matches_app_inv in H as (s1 & s' & stm & _ & H1 & H).
  apply Matches_app_inv in H as (s2 & s3 & stn & _ & H2 & H3).
  apply Matches_plain in H1; [|assumption]. rewrite pushl_None in H1. subst stm.
  apply Matches_monto in H2 as (n & -> & Hn & Hdc). simpl in H3. eauto.
Qed.

(** A group around a pattern without groups captures what the pattern
    matched. *)
Lemma Matches_grupo body s st st' :
  plain body = true -> Matches (Open :: body ++ [Close]) s st st' ->
  st' = Caps None (closed st ++ [s]).
Proof.
  intros HP H. apply Matches_open_inv in H.
  apply Matches_app_inv in H as (s1 & s2 & stm & -> & H1 & H2).
  apply Matches_plain in H1; [|assumption]. unfold open_group in H1.
  rewrite pushl_Some in H1. subst stm.
  apply Matches_close_inv in H2. apply Matches_nil_inv in H2 as [-> ->].
  unfold close_group. simpl. now rewrite !app_nil_r, rev_involutive.
Qed.

Lemma search_Matches r texto mo :
  search r texto = Some mo ->
  exists s st', Matches r s caps0 st' /\ groups mo = closed st'.
Proof.
  intros H. apply search_sound in H as (pre & q & _ & H).
  apply m_sound in H as (s1 & st' & _ & HM & Hg). eauto.
Qed.

(** A pattern with one amount at its end captures one numeral. *)
Lemma search_un_monto pat texto mo :
  plain (firstn (length pat - 5) pat) = true ->
  skipn (length pat - 5) pat = monto ->
  search pat texto = Some mo ->
  exists n, groups mo = [n] /\ n <> [] /\ forallb (mem DigitComma) n = true.
Proof.
  intros HP Hm H. apply search_Matches in H as (s & st' & HM & ->).
  rewrite <- (firstn_skipn (length pat - 5) pat), Hm in HM.
  rewrite <- (app_nil_r monto) in HM.
  apply Matches_plain_monto in HM as (n & s2 & Hn & Hdc & HM); [|assumption].
  apply Matches_nil_inv in HM as [_ ->]. simpl. eauto.
Qed.

Lemma search_facturas_grupos texto mo :
  search patron_seccion_facturas texto = Some mo ->
  exists n1 n2, groups mo = [n1; n2] /\
    n1 <> [] /\ forallb (mem DigitComma) n1 = true /\
    n2 <> [] /\ forallb (mem DigitComma) n2 = true.
Proof.
  intros H. apply search_Matches in H as (s & st' & HM & ->).
  change patron_seccion_facturas with
    ((chars "DATOS DE FACTURAS" ++ skip ++ chars "V." ++ ws ++ chars "Bruta"
        ++ ws ++ chars ":" ++ ws)
     ++ monto ++ (skip ++ chars "Total" ++ ws ++ chars ":" ++ ws) ++ monto ++ [])
    in HM.
  apply Matches_plain_monto in HM as (n1 & s2 & Hn1 & Hdc1 & HM); [|reflexivity].
  apply Matches_plain_monto in HM as (n2 & s3 & Hn2 & Hdc2 & HM); [|reflexivity].
  apply Matches_nil_inv in HM as [_ ->]. simpl. exists n1, n2. auto.
Qed.

(** The two time patterns capture one group. *)
Lemma search_tiempo_grupo marca texto mo :
  search (chars marca ++ ws ++ fecha_hora) texto = Some mo ->
  exists g, groups mo = [g].
Proof.
  intros H. apply search_Matches in H as (s & st' & HM & ->).
  apply Matches_app_inv in HM as (s1 & s' & stm & _ & H1 & H).
  apply Matches_app_inv in H as (s2 & s3 & stn & _ & H2 & H3).
  apply Matches_plain in H1; [|apply plain_lits].
  apply Matches_plain in H2; [|reflexivity].
  unfold caps0 in H1. rewrite pushl_None in H1. subst stm. rewrite pushl_None in H2. subst stn.
  apply (Matches_grupo (firstn 24 (tl fecha_hora))) in H3; [|reflexivity].
  subst st'. simpl. eauto.
Qed.

(* ===================================================================== *)
(** * The statements of the [try] block *)

Lemma seguido_ok (a b : stmt) d d' : a d = (None, d') -> (a ;> b) d = b d'.
Proof. unfold seguido. now intros ->. Qed.

Lemma seguido_raise (a b : stmt) d d' e :
  a d = (Some e, d') -> (a ;> b) d = (Some e, d').
Proof. unfold seguido. now intros ->. Qed.

Lemma secuencia_app l1 l2 d :
  secuencia (l1 ++ l2) d =
  match secuencia l1 d with
  | (None, d') => secuencia l2 d'
  | (Some e, d') => (Some e, d')
  end.
Proof.
  revert d. induction l1 as [|a l1 IH]; intros d; [reflexivity|].
  simpl. unfold seguido. destruct (a d) as [[e|] d']; [reflexivity|]. apply IH.
Qed.

Lemma asignar_int_captura k n d :
  forallb (mem DigitComma) n = true -> n <> [] ->
  asignar_int k (Some n) d =
  if existsb is_digit n then (None, <[k := VInt (numeral_value n)]> d)
  else (Some (ValueError []), d).
Proof.
  intros Hdc Hn. unfold asignar_int. rewrite (int_limpiar_captura _ Hdc Hn).
  destruct (existsb is_digit n); reflexivity.
Qed.

(** *** Which keys a statement assigns *)

Lemma escribe_pass ks : escribe ks pass.
Proof. intros d k _. reflexivity. Qed.

Lemma escribe_asignar_str ks k g : In k ks -> escribe ks (asignar_str k g).
Proof.
  intros Hk d k' Hk'. unfold asignar_str. simpl.
  apply lookup_insert_ne. intros ->. contradiction.
Qed.

Lemma escribe_asignar_int ks k g : In k ks -> escribe ks (asignar_int k g).
Proof.
  intros Hk d k' Hk'. unfold asignar_int.
  destruct (int (limpiar_valor_monetario g)); simpl; [reflexivity|].
  apply lookup_insert_ne. intros ->. contradiction.
Qed.

Lemma escribe_seguido ks a b :
  escribe ks a -> escribe ks b -> escribe ks (a ;> b).
Proof.
  intros Ha Hb d k Hk. unfold seguido. specialize (Ha d k Hk).
  destruct (a d) as [[e|] d']; simpl in *; [assumption|].
  now rewrite (Hb d' k Hk).
Qed.

Lemma escribe_si_match ks pat texto f :
  (forall mo, escribe ks (f mo)) -> escribe ks (si_match pat texto f).
Proof.
  intros H. unfold si_match. destruct (search pat texto); [apply H|].
  apply escribe_pass.
Qed.

Lemma escribe_secuencia ks l :
  Forall (escribe ks) l -> escribe ks (secuencia l).
Proof.
  induction 1; simpl; [apply escribe_pass|]. now apply escribe_seguido.
Qed.

Lemma escribe_mono ks ks' s :
  (forall k, In k ks -> In k ks') -> escribe ks s -> escribe ks' s.
Proof. intros Hsub H d k Hk. apply H. auto. Qed.

(** Every statement assigns the keys listed for it in [claves_pasos]. *)
Lemma escribe_pasos texto :
  Forall2 escribe claves_pasos (pasos texto).
Proof.
  unfold claves_pasos, pasos.
  repeat (apply List.Forall2_cons; [apply escribe_si_match; intros mo|]);
    [..|apply List.Forall2_nil].
  - apply escribe_asignar_str. now left.
  - apply escribe_asignar_str. now left.
  - apply escribe_seguido; apply escribe_asignar_int; [now left|right; now left].
  - apply escribe_asignar_int. now left.
  - apply escribe_asignar_int. now left.
  - apply escribe_asignar_int. now left.
  - apply escribe_asignar_int. now left.
Qed.

(** *** Well-formed records *)

Lemma registro_completo_iff d :
  registro_completo d = true <->
  dom d = list_to_set (claves_tiempo ++ claves_monetarias) /\
  (forall k, In k claves_tiempo -> exists s, d !! k = Some (VStr s)) /\
  (forall k, In k claves_monetarias -> exists z, d !! k = Some (VInt z) /\ 0 <= z).
Proof.
  unfold registro_completo. rewrite !andb_true_iff, bool_decide_eq_true.
  rewrite !forallb_forall. split; intros [[H1 H2] H3] || intros (H1 & H2 & H3).
  - split; [assumption|]. split; intros k Hk.
    + specialize (H2 k Hk). destruct (d !! k) as [[s|z|]|]; try discriminate. eauto.
    + specialize (H3 k Hk). destruct (d !! k) as [[s|z|]|]; try discriminate.
      simpl in H3. exists z. split; [reflexivity|lia].
  - split; [split; [assumption|]|]; intros k Hk.
    + destruct (H2 k Hk) as [s ->]. reflexivity.
    + destruct (H3 k Hk) as (z & -> & Hz). simpl. lia.
Qed.

Lemma registro_completo_iniciales : registro_completo datos_iniciales = true.
Proof. vm_compute. reflexivity. Qed.

Lemma In_claves_dom (d : datos) (k : string) :
  dom d = list_to_set (claves_tiempo ++ claves_monetarias) ->
  In k (claves_tiempo ++ claves_monetarias) ->
  ({[k]} : gset string) ∪ dom d = dom d.
Proof.
  intros Hd Hk. apply list_elem_of_In in Hk.
  assert (k ∈ dom d) as Hin by (rewrite Hd; now apply elem_of_list_to_set).
  apply set_eq. intros x. rewrite elem_of_union, elem_of_singleton.
  split; [intros [->|]|]; auto.
Qed.

Lemma registro_completo_insert (d : datos) (k : string) (v : valor) :
  registro_completo d = true ->
  (In k claves_tiempo /\ (exists s, v = VStr s)) \/
  (In k claves_monetarias /\ (exists z, v = VInt z /\ 0 <= z)) ->
  registro_completo (<[k := v]> d) = true.
Proof.
  rewrite !registro_completo_iff. intros (Hd & Ht & Hm) Hk.
  split; [|split].
  - rewrite dom_insert_L, In_claves_dom; [assumption..|].
    apply in_or_app. tauto.
  - intros k' Hk'. destruct (decide (k = k')) as [<-|Hne].
    + rewrite lookup_insert_eq. destruct Hk as [(_ & s & ->)|(Hkm & _)]; [eauto|].
      exfalso. revert Hk' Hkm. unfold claves_tiempo, claves_monetarias. simpl.
      intros [<-|[<-|[]]]; intros H; repeat destruct H as [H|H]; discriminate || auto.
    + rewrite lookup_insert_ne by assumption. auto.
  - intros k' Hk'. destruct (decide (k = k')) as [<-|Hne].
    + rewrite lookup_insert_eq. destruct Hk as [(Hkt & _)|(_ & z & -> & Hz)]; [|eauto].
      exfalso. revert Hk' Hkt. unfold claves_tiempo, claves_monetarias. simpl.
      intros H [<-|[<-|[]]]; repeat destruct H as [H|H]; discriminate || auto.
    + rewrite lookup_insert_ne by assumption. auto.
Qed.

Lemma group_1 mo g l : groups mo = g :: l -> group 1 mo = Some g.
Proof. unfold group. now intros ->. Qed.

Lemma group_2 mo g1 g2 l : groups mo = g1 :: g2 :: l -> group 2 mo = Some g2.
Proof. unfold group. now intros ->. Qed.

(** A time statement never raises; it leaves the dict as it is or assigns
    a captured [str]. *)
Lemma paso_tiempo marca k texto d :
  si_match (chars marca ++ ws ++ fecha_hora) texto
    (fun mo => asignar_str k (group 1 mo)) d = (None, d) \/
  exists g,
    si_match (chars marca ++ ws ++ fecha_hora) texto
      (fun mo => asignar_str k (group 1 mo)) d = (None, <[k := VStr g]> d).
Proof.
  unfold si_match.
  destruct (search (chars marca ++ ws ++ fecha_hora) texto) as [mo|] eqn:E;
    [|now left].
  apply search_tiempo_grupo in E as [g Hg]. right. exists g.
  unfold asignar_str. now rewrite (group_1 _ _ _ Hg).
Qed.

(** A monetary statement leaves the dict as it is, assigns the value of the
    captured numeral, or raises [ValueError] without assigning. *)
Lemma paso_monto pat k texto d :
  plain (firstn (length pat - 5) pat) = true ->
  skipn (length pat - 5) pat = monto ->
  let paso := si_match pat texto (fun mo => asignar_int k (group 1 mo)) in
  paso d = (None, d) \/
  (exists n, paso d = (None, <[k := VInt (numeral_value n)]> d)) \/
  paso d = (Some (ValueError []), d).
Proof.
  intros HP Hm paso. unfold paso, si_match.
  destruct (search pat texto) as [mo|] eqn:E; [|now left].
  apply search_un_monto in E as (n & Hg & Hn & Hdc); try assumption.
  rewrite (group_1 _ _ _ Hg), (asignar_int_captura _ _ _ Hdc Hn).
  destruct (existsb is_digit n); eauto.
Qed.

Lemma paso_facturas texto d :
  extraer_facturas texto d = (None, d) \/
  (exists n1 n2, extraer_facturas texto d =
     (None, <["Total" := VInt (numeral_value n2)]>
              (<["V_Bruta" := VInt (numeral_value n1)]> d))) \/
  (exists n1, extraer_facturas texto d =
     (Some (ValueError []), <["V_Bruta" := VInt (numeral_value n1)]> d)) \/
  extraer_facturas texto d = (Some (ValueError []), d).
Proof.
  unfold extraer_facturas, si_match.
  destruct (search patron_seccion_facturas texto) as [mo|] eqn:E; [|now left].
  apply search_facturas_grupos in E as (n1 & n2 & Hg & Hn1 & Hdc1 & Hn2 & Hdc2).
  rewrite (group_1 _ _ _ Hg), (group_2 _ _ _ _ Hg). unfold seguido.
  rewrite (asignar_int_captura _ _ _ Hdc1 Hn1).
  destruct (existsb is_digit n1); [|auto].
  rewrite (asignar_int_captura _ _ _ Hdc2 Hn2).
  destruct (existsb is_digit n2); eauto 6.
Qed.

Lemma conserva_pasos texto : Forall conserva (pasos texto).
Proof.
  assert (forall k n d, In k claves_monetarias -> registro_completo d = true ->
            registro_completo (<[k := VInt (numeral_value n)]> d) = true) as Hint.
  { intros k n d Hk Hd. apply registro_completo_insert; [assumption|].
    right. split; [assumption|]. eauto using numeral_value_nonneg. }
  assert (forall pat k texto, In k claves_monetarias ->
            plain (firstn (length pat - 5) pat) = true ->
            skipn (length pat - 5) pat = monto ->
            conserva (si_match pat texto (fun mo => asignar_int k (group 1 mo))))
    as Hmonto.
  { intros pat k t Hk HP Hm d Hd.
    destruct (paso_monto pat k t d HP Hm) as [->|[[n ->]| ->]]; simpl; auto. }
  assert (forall marca k texto, In k claves_tiempo ->
            conserva (si_match (chars marca ++ ws ++ fecha_hora) texto
                        (fun mo => asignar_str k (group 1 mo)))) as Htiempo.
  { intros marca k t Hk d Hd.
    destruct (paso_tiempo marca k t d) as [->|[g ->]]; simpl; auto.
    apply registro_completo_insert; [assumption|]. left. eauto. }
  unfold pasos. repeat apply List.Forall_cons; try apply List.Forall_nil.
  - apply Htiempo. now left.
  - apply Htiempo. right. now left.
  - intros d Hd.
    destruct (paso_facturas texto d) as [->|[(n1 & n2 & ->)|[(n1 & ->)| ->]]];
      simpl; auto.
    + apply Hint; [right; now left|]. apply Hint; [now left|assumption].
    + apply Hint; [now left|assumption].
  - apply Hmonto; [do 2 right; now left|reflexivity|reflexivity].
  - apply Hmonto; [do 3 right; now left|reflexivity|reflexivity].
  - apply Hmonto; [do 4 right; now left|reflexivity|reflexivity].
  - apply Hmonto; [do 5 right; now left|reflexivity|reflexivity].
Qed.

Lemma conserva_secuencia l : Forall conserva l -> conserva (secuencia l).
Proof.
  induction 1 as [|a l Ha _ IH]; intros d Hd; [exact Hd|].
  simpl. unfold seguido. specialize (Ha d Hd).
  destruct (a d) as [[e|] d']; simpl in *; auto.
Qed.

Lemma ejecutar_fst l : (ejecutar l).1 = (secuencia l datos_iniciales).2.
Proof.
  unfold ejecutar. now destruct (secuencia l datos_iniciales) as [[e|] d].
Qed.

(* ===================================================================== *)
(** * [extraer_datos_pdf]: the record is complete *)

Lemma si_match_ausente pat texto f :
  ausente pat texto = true -> si_match pat texto f = pass.
Proof. unfold ausente, si_match. now destruct (search pat texto). Qed.

Lemma registro_completo_extraer texto :
  registro_completo (extraer_datos_pdf texto).1 = true.
Proof.
  unfold extraer_datos_pdf. rewrite ejecutar_fst.
  apply conserva_secuencia; [apply conserva_pasos|].
  apply registro_completo_iniciales.
Qed.

(** C6.  For every text the returned record has exactly the eight keys,
    with a [str] under the two time keys and a non-negative [int] under the
    six monetary keys; and when no pattern matches, the record is the
    record of defaults and nothing is reported as an error. *)
Theorem extraer_datos_pdf_completo (texto : str) :
  registro_completo (extraer_datos_pdf texto).1 = true /\
  (forallb (fun pat => ausente pat texto) patrones = true ->
   extraer_datos_pdf texto = (datos_iniciales, [])).
Proof.
  split.
  - apply registro_completo_extraer.
  - unfold patrones. simpl. rewrite !andb_true_iff.
    intros (H1 & H2 & H3 & H4 & H5 & H6 & H7 & _).
    unfold extraer_datos_pdf, ejecutar, pasos, extraer_apertura, extraer_cierre,
      extraer_facturas, extraer_efectivo, extraer_datafono, extraer_egresos,
      extraer_diferencia.
    rewrite !si_match_ausente by assumption. reflexivity.
Qed.

Lemma extraer_datos_pdf_completo_witness :
  forallb (fun pat => ausente pat (lit "INFORME SIN DATOS")) patrones = true /\
  extraer_datos_pdf (lit "INFORME SIN DATOS") = (datos_iniciales, []).
Proof.
  split; [reflexivity|].
  apply (extraer_datos_pdf_completo (lit "INFORME SIN DATOS")). reflexivity.
Defined.

(* ===================================================================== *)
(** * [extraer_datos_pdf]: independence of the fields and exceptions *)

Lemma escribe_concat cl l :
  Forall2 escribe cl l -> escribe (concat cl) (secuencia l).
Proof.
  induction 1 as [|ks s cl l Hs _ IH]; simpl; [apply escribe_pass|].
  apply escribe_seguido.
  - eapply escribe_mono; [|exact Hs]. intros k Hk. apply in_or_app. now left.
  - eapply escribe_mono; [|exact IH]. intros k Hk. apply in_or_app. now right.
Qed.

Lemma secuencia_pass l1 l2 d :
  secuencia (l1 ++ pass :: l2) d = secuencia (l1 ++ l2) d.
Proof.
  rewrite !secuencia_app. destruct (secuencia l1 d) as [[e|] d']; reflexivity.
Qed.

Lemma NoDup_claves : NoDup (concat claves_pasos).
Proof. apply (bool_decide_unpack _). vm_compute. exact I. Qed.

(** The keys of one statement are not keys of another. *)
Lemma claves_disjuntas (cl1 : list (list string)) ks cl2 k :
  NoDup (concat (cl1 ++ ks :: cl2)) ->
  (In k ks -> ~ In k (concat cl1) /\ ~ In k (concat cl2)) /\
  (In k (concat cl2) -> ~ In k (concat cl1) /\ ~ In k ks).
Proof.
  rewrite concat_app. simpl. intros H.
  apply list.NoDup_app in H as (_ & H1 & H2).
  apply list.NoDup_app in H2 as (_ & H3 & _).
  assert (forall x, In x (concat cl1) -> ~ In x ks /\ ~ In x (concat cl2)) as H1'.
  { intros x Hx. apply list_elem_of_In, H1 in Hx.
    rewrite list_elem_of_In in Hx. split; intros Hx'; apply Hx, in_or_app; auto. }
  assert (forall x, In x ks -> ~ In x (concat cl2)) as H3'.
  { intros x Hx. apply list_elem_of_In, H3 in Hx. now rewrite list_elem_of_In in Hx. }
  split; intros Hk; split; intros Hk'.
  - now apply (proj1 (H1' _ Hk')).
  - now apply (H3' _ Hk).
  - now apply (proj2 (H1' _ Hk')).
  - now apply (H3' _ Hk').
Qed.

Lemma paso_ausente texto i pat :
  patrones !! i = Some pat -> ausente pat texto = true ->
  exists l1 l2, pasos texto = l1 ++ pass :: l2 /\ length l1 = i.
Proof.
  intros Hp Ha. exists (take i (pasos texto)), (drop (S i) (pasos texto)).
  unfold pasos, extraer_apertura, extraer_cierre, extraer_facturas,
    extraer_efectivo, extraer_datafono, extraer_egresos, extraer_diferencia.
  do 7 (destruct i as [|i];
        [injection Hp as <-; rewrite (si_match_ausente _ _ _ Ha); now split|]).
  discriminate.
Qed.

Lemma ejecutar_sin_paso texto i pat :
  patrones !! i = Some pat -> ausente pat texto = true ->
  extraer_datos_pdf texto = ejecutar (delete i (pasos texto)).
Proof.
  intros Hp Ha. destruct (paso_ausente _ _ _ Hp Ha) as (l1 & l2 & E & <-).
  unfold extraer_datos_pdf, ejecutar. rewrite E, delete_middle.
  now rewrite secuencia_pass.
Qed.

Lemma campo_por_defecto texto i pat k :
  patrones !! i = Some pat -> ausente pat texto = true ->
  In k (nth i claves_pasos []) ->
  (extraer_datos_pdf texto).1 !! k = datos_iniciales !! k.
Proof.
  intros Hp Ha Hk. rewrite (ejecutar_sin_paso _ _ _ Hp Ha), ejecutar_fst.
  apply (escribe_concat (delete i claves_pasos)).
  - apply Forall2_delete, escribe_pasos.
  - clear -Hp Hk.
    do 7 (destruct i as [|i];
          [simpl in Hk; repeat destruct Hk as [<-|Hk]; try contradiction;
           simpl; intros H; repeat destruct H as [H|H];
           discriminate || contradiction|]).
    discriminate.
Qed.



Lemma secuencia_raise_inv l : forall d0 e d,
  secuencia l d0 = (Some e, d) ->
  exists i paso d1,
    l !! i = Some paso /\ secuencia (take i l) d0 = (None, d1) /\
    paso d1 = (Some e, d).
Proof.
  induction l as [|a l IH]; intros d0 e d H; [discriminate|].
  simpl in H. unfold seguido in H. destruct (a d0) as [[e'|] d'] eqn:Ea.
  - injection H as <- <-. exists 0%nat, a, d0. auto.
  - apply IH in H as (i & paso & d1 & Hi & Ht & Hp).
    exists (S i), paso, d1. repeat split; auto.
    simpl. unfold seguido. now rewrite Ea.
Qed.

(** The only exception of the [try] block is the [ValueError] of [int] on
    a capture without digits; the statement that raises has assigned
    nothing, except that the invoice-section statement may have assigned
    [V_Bruta] before the conversion of the total raises. *)
Lemma paso_raise texto i (paso : stmt) d1 e d :
  pasos texto !! i = Some paso -> paso d1 = (Some e, d) ->
  e = ValueError [] /\
  (d = d1 \/
   (i = 2%nat /\ exists n, d = <["V_Bruta" := VInt (numeral_value n)]> d1)).
Proof.
  intros Hi Hp.
  destruct i as [|i]; [injection Hi as <-|].
  { destruct (paso_tiempo "A:" "Apertura" texto d1) as [H|[g H]];
      unfold extraer_apertura, patron_apertura in Hp; congruence. }
  destruct i as [|i]; [injection Hi as <-|].
  { destruct (paso_tiempo "C:" "Cierre" texto d1) as [H|[g H]];
      unfold extraer_cierre, patron_cierre in Hp; congruence. }
  destruct i as [|i]; [injection Hi as <-|].
  { destruct (paso_facturas texto d1) as [H|[(n1 & n2 & H)|[(n1 & H)|H]]];
      rewrite H in Hp; try discriminate; injection Hp as <- <-; eauto 6. }
  do 4 (destruct i as [|i];
        [injection Hi as <-;
         match type of Hp with
         | si_match ?pat _ (fun mo => asignar_int ?k _) _ = _ =>
             destruct (paso_monto pat k texto d1 eq_refl eq_refl) as [H|[[n H]|H]]
         | ?f _ _ = _ =>
             unfold f in Hp;
             match type of Hp with
             | si_match ?pat _ (fun mo => asignar_int ?k _) _ = _ =>
                 destruct (paso_monto pat k texto d1 eq_refl eq_refl)
                   as [H|[[n H]|H]]
             end
         end;
         cbv zeta in H; rewrite H in Hp; try discriminate;
         injection Hp as <- <-; auto|]).
  discriminate.
Qed.

(** C7.  When a statement of the [try] block raises, the extractor shows
    the error and still returns the dict: a complete record in which the
    fields of the statements that ran before keep what was extracted and
    the fields of the statements after it keep their defaults.  The
    statement that raised has left the dict as it found it, or with
    [V_Bruta] assigned when the conversion of the total is what raised. *)
Theorem extraer_datos_pdf_excepcion (texto : str) (e : exn) (d : datos) :
  secuencia (pasos texto) datos_iniciales = (Some e, d) ->
  extraer_datos_pdf texto = (d, [Error_al_extraer e]) /\
  registro_completo d = true /\
  exists i (paso : stmt) d1,
    pasos texto !! i = Some paso /\
    secuencia (take i (pasos texto)) datos_iniciales = (None, d1) /\
    paso d1 = (Some e, d) /\
    (forall k, In k (concat (take i claves_pasos)) -> d !! k = d1 !! k) /\
    (forall k, In k (concat (drop (S i) claves_pasos)) ->
       d !! k = datos_iniciales !! k) /\
    (d = d1 \/
     (i = 2%nat /\ exists n, d = <["V_Bruta" := VInt (numeral_value n)]> d1)).
Proof.
  intros H. split; [|split].
  - unfold extraer_datos_pdf, ejecutar. now rewrite H.
  - change d with (Some e, d).2. rewrite <- H.
    apply conserva_secuencia; [apply conserva_pasos|].
    apply registro_completo_iniciales.
  - apply secuencia_raise_inv in H as (i & paso & d1 & Hi & Ht & Hp).
    exists i, paso, d1.
    split; [exact Hi|]. split; [exact Ht|]. split; [exact Hp|].
    pose proof (escribe_pasos texto) as HF.
    destruct (Forall2_lookup_r _ _ _ _ _ HF Hi) as (ks & Hks & Hesc).
    pose proof NoDup_claves as ND.
    rewrite <- (take_drop_middle _ _ _ Hks) in ND.
    split; [|split].
    + intros k Hk. change d with (Some e, d).2. rewrite <- Hp.
      apply Hesc. intros Hin.
      destruct (claves_disjuntas _ _ _ k ND) as [D1 _].
      now apply (proj1 (D1 Hin)).
    + intros k Hk. destruct (claves_disjuntas _ _ _ k ND) as [_ D2].
      destruct (D2 Hk) as [N1 N2].
      change d with (Some e, d).2. rewrite <- Hp. rewrite (Hesc _ _ N2).
      change d1 with (None (A:=exn), d1).2. rewrite <- Ht.
      apply (escribe_concat (take i claves_pasos)); [|exact N1].
      now apply Forall2_take.
    + apply (paso_raise texto i paso d1 e d Hi Hp).
Qed.

Lemma extraer_datos_pdf_excepcion_witness :
  let texto := lit "A: 01/02/2024 10:11:12 AM Medio : EFECTIVO Val. Ventas : $500 Medio : DATAFONO Val. Ventas : , Diferencia: $7" in
  let r := extraer_datos_pdf texto in
  r.2 = [Error_al_extraer (ValueError [])] /\
  registro_completo r.1 = true /\
  r.1 !! "Apertura"%string = Some (VStr (lit "01/02/2024 10:11:12 AM")) /\
  r.1 !! "Efectivo"%string = Some (VInt 500) /\
  r.1 !! "Datafono"%string = Some (VInt 0) /\
  r.1 !! "Diferencia"%string = Some (VInt 0).
Proof.
  intros texto r.
  assert (secuencia (pasos texto) datos_iniciales =
          (Some (ValueError []), (secuencia (pasos texto) datos_iniciales).2))
    as H by (vm_compute; reflexivity).
  destruct (extraer_datos_pdf_excepcion texto _ _ H) as (E & Hrc & _).
  split; [unfold r; rewrite E; reflexivity|].
  split; [unfold r; rewrite E; exact Hrc|].
  repeat split; vm_compute; reflexivity.
Defined.

(* ===================================================================== *)
(** * [procesar_pdf] and the batch loop *)

Lemma extraer_datos_pdf_no_vacio texto : (extraer_datos_pdf texto).1 <> ∅.
Proof.
  pose proof (registro_completo_extraer texto) as H.
  apply registro_completo_iff in H as (_ & Ht & _).
  destruct (Ht "Apertura"%string) as [s Hs]; [now left|].
  intros E. rewrite E, lookup_empty in Hs. discriminate.
Qed.

Lemma procesar_pdf_falla a :
  falla a = true -> exists e, procesar_pdf a = (None, [Error_al_procesar e]).
Proof.
  unfold falla, procesar_pdf. destruct (abrir a) as [e|ps]; [eauto|].
  destruct (leer_paginas [] ps) as [e|t]; [eauto|discriminate].
Qed.

Lemma procesar_pdf_exitoso a :
  falla a = false ->
  procesar_pdf a =
  (Some (extraer_datos_pdf (texto_de a)).1, (extraer_datos_pdf (texto_de a)).2).
Proof.
  unfold falla, procesar_pdf, texto_de. destruct (abrir a) as [e|ps]; [discriminate|].
  destruct (leer_paginas [] ps) as [e|t]; [discriminate|]. intros _.
  now destruct (extraer_datos_pdf t).
Qed.

Lemma procesar_uno_falla st a :
  falla a = true ->
  resultados (procesar_uno st a) = resultados st /\
  errores (procesar_uno st a) = errores st ++ [name a].
Proof.
  intros H. unfold procesar_uno.
  destruct (procesar_pdf_falla _ H) as [e ->]. now split.
Qed.

Lemma procesar_uno_exitoso st a :
  falla a = false ->
  resultados (procesar_uno st a) = resultados st ++ [registro_de a] /\
  errores (procesar_uno st a) = errores st.
Proof.
  intros H. unfold procesar_uno. rewrite (procesar_pdf_exitoso _ H).
  rewrite bool_decide_eq_false_2 by apply extraer_datos_pdf_no_vacio.
  now split.
Qed.

Lemma procesar_lote_desde archivos : forall st,
  resultados (fold_left procesar_uno archivos st) =
    resultados st ++ map registro_de (List.filter exitoso archivos) /\
  errores (fold_left procesar_uno archivos st) =
    errores st ++ map name (List.filter falla archivos).
Proof.
  induction archivos as [|a l IH]; intros st; simpl.
  - now rewrite !app_nil_r.
  - destruct (IH (procesar_uno st a)) as [-> ->]. unfold exitoso at 2.
    destruct (falla a) eqn:E; simpl.
    + destruct (procesar_uno_falla st a E) as [-> ->].
      now rewrite <- app_assoc.
    + destruct (procesar_uno_exitoso st a E) as [-> ->].
      now rewrite <- app_assoc.
Qed.

Lemma filter_particion {A} (f : A -> bool) l :
  (length (List.filter (fun a => negb (f a)) l) + length (List.filter f l)
   = length l)%nat.
Proof.
  induction l as [|a l IH]; [reflexivity|]. simpl.
  destruct (f a); simpl; lia.
Qed.

(** C8.  For a batch of N files of which M are files whose text cannot be
    obtained, the batch loop ends with N - M records, one per other file in
    order, each the extractor's record for that file with the file name
    under ["Archivo"], and with the names of the M files in the list of
    errors, in order. *)
Theorem procesar_lote_resultados (uploaded_files : list archivo) :
  let l := procesar_lote uploaded_files in
  let N := length uploaded_files in
  let M := length (List.filter falla uploaded_files) in
  resultados l = map registro_de (List.filter exitoso uploaded_files) /\
  errores l = map name (List.filter falla uploaded_files) /\
  length (resultados l) = (N - M)%nat /\
  length (errores l) = M /\
  Forall2 (fun d a => d !! "Archivo"%string = Some (VStr (name a)))
    (resultados l) (List.filter exitoso uploaded_files).
Proof.
  intros l N M. unfold l, procesar_lote.
  destruct (procesar_lote_desde uploaded_files (Lote [] [] [])) as [-> ->].
  simpl. repeat split.
  - rewrite length_map. unfold N, M, exitoso.
    pose proof (filter_particion falla uploaded_files). lia.
  - now rewrite length_map.
  - apply Forall2_fmap_l, Forall_Forall2_diag, List.Forall_forall.
    intros a _. unfold registro_de. apply lookup_insert_eq.
Qed.

(* ===================================================================== *)
(** * Which occurrence each statement extracts *)

(** What a statement assigns stays in the returned record when the
    statements before it complete: the statements after it assign other
    keys, whether they raise or not. *)
Lemma campo_asignado texto i (paso : stmt) ks d1 k v :
  pasos texto !! i = Some paso -> claves_pasos !! i = Some ks -> In k ks ->
  secuencia (take i (pasos texto)) datos_iniciales = (None, d1) ->
  (paso d1).2 !! k = Some v ->
  (extraer_datos_pdf texto).1 !! k = Some v.
Proof.
  intros Hi Hks Hk Ht Hv. unfold extraer_datos_pdf. rewrite ejecutar_fst.
  rewrite <- (take_drop_middle _ _ _ Hi). rewrite secuencia_app. rewrite Ht.
  change (secuencia (paso :: drop (S i) (pasos texto)) d1)
    with ((paso ;> secuencia (drop (S i) (pasos texto))) d1).
  unfold seguido. destruct (paso d1) as [[e|] d2]; cbn [snd] in *; [assumption|].
  rewrite <- Hv. apply (escribe_concat (drop (S i) claves_pasos)).
  - apply Forall2_drop, escribe_pasos.
  - pose proof NoDup_claves as ND.
    rewrite <- (take_drop_middle _ _ _ Hks) in ND.
    destruct (claves_disjuntas _ _ _ k ND) as [D _]. now apply D.
Qed.

Lemma tiempo_completa marca k texto d :
  exists d',
    si_match (chars marca ++ ws ++ fecha_hora) texto
      (fun mo => asignar_str k (group 1 mo)) d = (None, d').
Proof. destruct (paso_tiempo marca k texto d) as [->|[g ->]]; eauto. Qed.

(** The leftmost occurrence of a time marker followed by a date-time token
    is the match of the marker's pattern, and its group is the token. *)
Lemma search_marca marca pre sp tok post :
  unamb (chars marca ++ ws ++ fecha_hora) any_char = true ->
  forallb is_space sp = true -> matches fecha_hora tok ->
  no_start_in (chars marca ++ ws ++ fecha_hora) pre
    (lit marca ++ sp ++ tok ++ post) = true ->
  search (chars marca ++ ws ++ fecha_hora) (pre ++ lit marca ++ sp ++ tok ++ post)
  = Some (Match [tok] post).
Proof.
  intros Hu Hsp [st' Htok] Hpre. rewrite (search_skip _ _ _ Hpre).
  apply search_here.
  assert (st' = Caps None [tok]) as ->.
  { now apply (Matches_grupo (firstn 24 (tl fecha_hora))) in Htok. }
  assert (Matches (chars marca ++ ws ++ fecha_hora) (lit marca ++ sp ++ tok)
            caps0 (Caps None [tok])) as HM.
  { apply Matches_app with (stm := caps0).
    - pose proof (Matches_lits (lit marca) caps0) as H.
      unfold caps0 in H at 2. now rewrite pushl_None in H.
    - apply Matches_star_intro; [assumption|].
      unfold caps0. now rewrite pushl_None. }
  pose proof (m_det _ _ _ _ HM any_char post [] (Match [tok] post) Hu) as H.
  rewrite app_nil_r, <- !app_assoc in H. apply H; [|reflexivity].
  now destruct post.
Qed.

(** C10.  The markers [A:] and [C:] are searched as plain substrings: when
    the leftmost place where the opening pattern matches is an [A:]
    (whatever precedes it, such as the rest of a longer word), optional
    whitespace and a date-time token, [Apertura] is that token; likewise
    for [C:] and [Cierre]. *)
Theorem extraer_datos_pdf_marcas (pre sp tok post : str) :
  forallb is_space sp = true -> matches fecha_hora tok ->
  (no_start_in patron_apertura pre (lit "A:" ++ sp ++ tok ++ post) = true ->
   (extraer_datos_pdf (pre ++ lit "A:" ++ sp ++ tok ++ post)).1 !! "Apertura"%string
   = Some (VStr tok)) /\
  (no_start_in patron_cierre pre (lit "C:" ++ sp ++ tok ++ post) = true ->
   (extraer_datos_pdf (pre ++ lit "C:" ++ sp ++ tok ++ post)).1 !! "Cierre"%string
   = Some (VStr tok)).
Proof.
  intros Hsp Htok. split; intros Hpre.
  - eapply (campo_asignado _ 0); [reflexivity|reflexivity|now left|reflexivity|].
    unfold extraer_apertura, si_match, patron_apertura.
    rewrite (search_marca "A:" pre sp tok post) by auto.
    apply lookup_insert_eq.
  - set (texto := pre ++ lit "C:" ++ sp ++ tok ++ post).
    destruct (tiempo_completa "A:" "Apertura" texto datos_iniciales) as [d1 H1].
    eapply (campo_asignado _ 1 _ _ d1);
      [reflexivity|reflexivity|now left|..].
    + simpl. unfold seguido, extraer_apertura, patron_apertura. now rewrite H1.
    + unfold extraer_cierre, si_match, patron_cierre, texto.
      rewrite (search_marca "C:" pre sp tok post) by auto.
      apply lookup_insert_eq.
Qed.

(** A match found by the matcher that leaves nothing over is an occurrence. *)
Lemma occurrence_by_m r s gs :
  m r s caps0 = Some (Match gs []) -> occurrence r s gs.
Proof.
  intros H. apply m_sound in H as (s1 & st' & E & HM & Hg). simpl in *.
  rewrite app_nil_r in E. subst s1. now exists st'.
Qed.

Lemma matches_by_m r s gs : m r s caps0 = Some (Match gs []) -> matches r s.
Proof. intros H. apply occurrence_by_m in H as (st' & HM & _). now exists st'. Qed.

Lemma extraer_datos_pdf_marcas_witness :
  (extraer_datos_pdf (lit "CAJA 1 HORA: 01/02/2024 10:11:12 AM A: 03/04/2024 01:02:03 PM")).1
    !! "Apertura"%string = Some (VStr (lit "01/02/2024 10:11:12 AM")) /\
  (extraer_datos_pdf (lit "CAJA 1 FEC: 01/02/2024 10:11:12 PM C: 03/04/2024 01:02:03 PM")).1
    !! "Cierre"%string = Some (VStr (lit "01/02/2024 10:11:12 PM")).
Proof.
  split.
  - apply (extraer_datos_pdf_marcas (lit "CAJA 1 HOR") (lit " ")
             (lit "01/02/2024 10:11:12 AM") (lit " A: 03/04/2024 01:02:03 PM"));
      [reflexivity| |reflexivity].
    apply (matches_by_m _ _ [lit "01/02/2024 10:11:12 AM"]). reflexivity.
  - apply (extraer_datos_pdf_marcas (lit "CAJA 1 FE") (lit " ")
             (lit "01/02/2024 10:11:12 PM") (lit " C: 03/04/2024 01:02:03 PM"));
      [reflexivity| |reflexivity].
    apply (matches_by_m _ _ [lit "01/02/2024 10:11:12 PM"]). reflexivity.
Defined.

(** *** Sections with an amount *)











(** *** The two payment-method sections *)







(** *** No total after the gross sales *)

Lemma search_sufijo_None r x : forall b,
  search r (x ++ b) = None -> search r b = None.
Proof.
  induction x as [|c x IH]; intros b H; [exact H|].
  change ((c :: x) ++ b) with (c :: (x ++ b)) in H. rewrite search_eq in H.
  destruct (m r (c :: x ++ b) caps0); [discriminate|]. simpl in H. auto.
Qed.

(** A match of the invoice-section pattern contains a header, later a
    gross-sales occurrence and, after it, a total occurrence. *)
Lemma search_facturas_inv texto mo :
  search patron_seccion_facturas texto = Some mo ->
  exists p a vb b,
    texto = p ++ lit "DATOS DE FACTURAS" ++ a ++ vb ++ b /\
    matches v_bruta vb /\ is_Some (search total b).
Proof.
  intros H. apply search_sound in H as (p & q & -> & H).
  apply m_sound in H as (s1 & st' & -> & HM & _).
  unfold patron_seccion_facturas in HM.
  apply Matches_app_inv in HM as (h & s2 & st1 & -> & Hh & HM).
  apply Matches_lits_inv in Hh as ->.
  change (skip ++ v_bruta ++ skip ++ total)
    with (Lazy AnyChar :: (v_bruta ++ (Lazy AnyChar :: total))) in HM.
  apply Matches_lazy_inv in HM as (a & s3 & -> & _ & HM).
  apply (Matches_app_inv v_bruta) in HM as (vb & s4 & st2 & -> & Hvb & HM).
  apply Matches_lazy_inv in HM as (w & tt & -> & _ & HM).
  exists p, a, vb, (w ++ tt ++ rest mo). split.
  - now rewrite <- !app_assoc.
  - split; [apply (Matches_any_state _ _ _ _ Hvb caps0)|].
    apply search_complete. apply match_at_true.
    exists tt, (rest mo). split; [reflexivity|].
    apply (Matches_any_state _ _ _ _ HM caps0).
Qed.

(** C9, at a text whose only [Total :] is followed by a comma: no digit
    comes after the gross sales, the combined pattern still matches,
    [V_Bruta] is set and the conversion of the total raises. *)
Lemma extraer_datos_pdf_total_solo_comas :
  let cabeza := lit "DATOS DE FACTURAS V. Bruta : $5" in
  let cola := lit " Total : ," in
  let r := extraer_datos_pdf (cabeza ++ cola) in
  occurrence v_bruta (lit "V. Bruta : $5") [lit "5"] /\
  existsb is_digit cola = false /\
  r.1 !! "V_Bruta"%string = Some (VInt 5) /\
  r.1 !! "Total"%string = Some (VInt 0) /\
  r.2 = [Error_al_extraer (ValueError [])].
Proof.
  intros cabeza cola r. split; [apply occurrence_by_m; reflexivity|].
  repeat split; vm_compute; reflexivity.
Qed.

(** C9, as amended.  In a text where no match of the total pattern (the
    label, a colon, an optional currency symbol and a run of digits or
    commas) starts after a gross-sales occurrence that follows the header
    [DATOS DE FACTURAS], both [V_Bruta] and [Total] keep their default 0. *)
Theorem extraer_datos_pdf_sin_total (texto : str) :
  (forall p a vb b,
     texto = p ++ lit "DATOS DE FACTURAS" ++ a ++ vb ++ b ->
     matches v_bruta vb -> search total b = None) ->
  (extraer_datos_pdf texto).1 !! "V_Bruta"%string = Some (VInt 0) /\
  (extraer_datos_pdf texto).1 !! "Total"%string = Some (VInt 0).
Proof.
  intros H.
  assert (ausente patron_seccion_facturas texto = true) as Ha.
  { unfold ausente.
    destruct (search patron_seccion_facturas texto) as [mo|] eqn:E; [|reflexivity].
    apply search_facturas_inv in E as (p & a & vb & b & Et & Hvb & [x Hx]).
    rewrite (H p a vb b Et Hvb) in Hx. discriminate. }
  split.
  - rewrite (campo_por_defecto texto 2 patron_seccion_facturas);
      [reflexivity|reflexivity|assumption|now left].
  - rewrite (campo_por_defecto texto 2 patron_seccion_facturas);
      [reflexivity|reflexivity|assumption|right; now left].
Qed.

Lemma extraer_datos_pdf_sin_total_witness :
  let texto := lit "Total : $9 DATOS DE FACTURAS V. Bruta : $5 Diferencia: $1" in
  (extraer_datos_pdf texto).1 !! "V_Bruta"%string = Some (VInt 0) /\
  (extraer_datos_pdf texto).1 !! "Total"%string = Some (VInt 0).
Proof.
  intros texto. apply extraer_datos_pdf_sin_total.
  intros p a vb b E _.
  destruct p as [|c p].
  - vm_compute in E. discriminate.
  - assert (tl texto = p ++ lit "DATOS DE FACTURAS" ++ a ++ vb ++ b) as E'
      by (rewrite E; reflexivity).
    apply (search_sufijo_None total (p ++ lit "DATOS DE FACTURAS" ++ a ++ vb)).
    rewrite <- !app_assoc, <- E'. reflexivity.
Defined.

(** *** A batch of three files *)

(** Three uploads: a report, a file that is not a PDF, and a PDF with a
    page without text.  One record and two errors come out. *)
Example procesar_lote_ejemplo :
  let informe := Archivo (lit "caja1.pdf")
    (inr [inr (Some (lit "A: 01/02/2024 08:00:00 AM")); inr (Some (lit "Diferencia: $1,500"))]) in
  let roto := Archivo (lit "notas.txt") (inl PdfError) in
  let vacio := Archivo (lit "escaneo.pdf") (inr [inr None]) in
  let l := procesar_lote [informe; roto; vacio] in
  errores l = [lit "notas.txt"; lit "escaneo.pdf"] /\
  mostrados l = [Error_al_procesar PdfError; Error_al_procesar TypeError] /\
  map (fun d => (d !! "Archivo"%string, d !! "Apertura"%string, d !! "Diferencia"%string))
      (resultados l)
  = [(Some (VStr (lit "caja1.pdf")), Some (VStr (lit "01/02/2024 08:00:00 AM")),
      Some (VInt 1500))].
Proof. repeat split; vm_compute; reflexivity. Qed.

(* ===================================================================== *)
(** * Further properties of [extraer_datos_pdf] *)

(** *** Which errors can be shown *)

Lemma mensajes_extraer texto :
  (extraer_datos_pdf texto).2 = [] \/
  (extraer_datos_pdf texto).2 = [Error_al_extraer (ValueError [])].
Proof.
  unfold extraer_datos_pdf, ejecutar.
  destruct (secuencia (pasos texto) datos_iniciales) as [[e|] d] eqn:E;
    [|now left].
  right. apply secuencia_raise_inv in E as (i & paso & d1 & Hi & _ & Hp).
  now destruct (paso_raise _ _ _ _ _ _ Hi Hp) as [-> _].
Qed.









(** *** Each field is extracted on its own *)

Lemma uniforme_pass : uniforme pass.
Proof. intros d d'. split; [reflexivity|auto]. Qed.

Lemma uniforme_asignar_str k g : uniforme (asignar_str k g).
Proof.
  intros d d'. split; [reflexivity|]. intros k' H. unfold asignar_str. simpl.
  destruct (decide (k = k')) as [<-|Hne].
  - now rewrite !lookup_insert_eq.
  - now rewrite !lookup_insert_ne.
Qed.

Lemma uniforme_asignar_int k g : uniforme (asignar_int k g).
Proof.
  intros d d'. unfold asignar_int.
  destruct (int (limpiar_valor_monetario g)); simpl; split; auto.
  intros k' H. destruct (decide (k = k')) as [<-|Hne].
  - now rewrite !lookup_insert_eq.
  - now rewrite !lookup_insert_ne.
Qed.

Lemma uniforme_seguido a b : uniforme a -> uniforme b -> uniforme (a ;> b).
Proof.
  intros Ha Hb d d'. destruct (Ha d d') as [Ha1 Ha2]. unfold seguido.
  destruct (a d) as [[e|] d1], (a d') as [[e'|] d1']; simpl in *;
    try discriminate.
  - split; [assumption|]. auto.
  - destruct (Hb d1 d1') as [Hb1 Hb2]. split; [assumption|].
    intros k H. apply Hb2. auto.
Qed.

Lemma uniforme_si_match pat texto f :
  (forall mo, uniforme (f mo)) -> uniforme (si_match pat texto f).
Proof.
  intros H. unfold si_match. destruct (search pat texto); [apply H|].
  apply uniforme_pass.
Qed.

Lemma uniforme_pasos texto : Forall uniforme (pasos texto).
Proof.
  unfold pasos.
  repeat (apply List.Forall_cons; [apply uniforme_si_match; intros mo|]);
    [..|apply List.Forall_nil];
    try apply uniforme_seguido;
    first [apply uniforme_asignar_str | apply uniforme_asignar_int].
Qed.

(** The fields of a statement that runs are, in the returned record, what
    the statement left in the dict. *)
Lemma campo_de_paso texto i (paso : stmt) ks d1 k :
  pasos texto !! i = Some paso -> claves_pasos !! i = Some ks -> In k ks ->
  secuencia (take i (pasos texto)) datos_iniciales = (None, d1) ->
  (extraer_datos_pdf texto).1 !! k = (paso d1).2 !! k /\
  d1 !! k = datos_iniciales !! k.
Proof.
  intros Hi Hks Hk Ht.
  pose proof NoDup_claves as ND.
  rewrite <- (take_drop_middle _ _ _ Hks) in ND.
  destruct (claves_disjuntas _ _ _ k ND) as [D _]. destruct (D Hk) as [N1 N2].
  split.
  - unfold extraer_datos_pdf. rewrite ejecutar_fst.
    rewrite <- (take_drop_middle _ _ _ Hi). rewrite secuencia_app. rewrite Ht.
    change (secuencia (paso :: drop (S i) (pasos texto)) d1)
      with ((paso ;> secuencia (drop (S i) (pasos texto))) d1).
    unfold seguido. destruct (paso d1) as [[e|] d2]; cbn [snd]; [reflexivity|].
    apply (escribe_concat (drop (S i) claves_pasos)); [|exact N2].
    apply Forall2_drop, escribe_pasos.
  - change d1 with (None (A:=exn), d1).2. rewrite <- Ht.
    apply (escribe_concat (take i claves_pasos)); [|exact N1].
    apply Forall2_take, escribe_pasos.
Qed.

Lemma completan_inv i texto :
  completan i texto = true ->
  exists d1, secuencia (take i (pasos texto)) datos_iniciales = (None, d1).
Proof.
  unfold completan.
  destruct (secuencia (take i (pasos texto)) datos_iniciales) as [[e|] d1];
    [discriminate|eauto].
Qed.

(** X6.  When the statements before a statement complete, the fields of
    that statement in the returned record are what the statement alone
    extracts from the defaults: no field depends on the others. *)
Theorem extraer_datos_pdf_campo_independiente
    (texto : str) (i : nat) (paso : stmt) (k : string) :
  completan i texto = true -> pasos texto !! i = Some paso ->
  In k (nth i claves_pasos []) ->
  (extraer_datos_pdf texto).1 !! k = (ejecutar [paso]).1 !! k.
Proof.
  intros Hc Hi Hk. apply completan_inv in Hc as [d1 Ht].
  destruct (Forall2_lookup_r _ _ _ _ _ (escribe_pasos texto) Hi)
    as (ks & Hks & _).
  rewrite (nth_lookup_Some _ _ _ _ Hks) in Hk.
  destruct (campo_de_paso _ _ _ _ _ _ Hi Hks Hk Ht) as [-> Hd].
  assert (uniforme paso) as Hu.
  { pose proof (uniforme_pasos texto) as HF. rewrite List.Forall_forall in HF.
    apply HF. apply list_elem_of_In. eapply list_elem_of_lookup_2, Hi. }
  rewrite ejecutar_fst. simpl. unfold seguido.
  destruct (Hu d1 datos_iniciales) as [_ H2]. rewrite (H2 _ Hd).
  now destruct (paso datos_iniciales) as [[e|] d2].
Qed.

Lemma extraer_datos_pdf_campo_independiente_witness :
  let texto := lit "Medio : EFECTIVO Val. Ventas : $500 Medio : DATAFONO Val. Ventas : ," in
  completan 3 texto = true /\
  (extraer_datos_pdf texto).2 = [Error_al_extraer (ValueError [])] /\
  (extraer_datos_pdf texto).1 !! "Efectivo"%string
  = (ejecutar [extraer_efectivo texto]).1 !! "Efectivo"%string.
Proof.
  intros texto. split; [reflexivity|]. split; [vm_compute; reflexivity|].
  apply (extraer_datos_pdf_campo_independiente texto 3); try reflexivity.
  now left.
Defined.

(** *** Expenses and difference *)






(** *** A difference with a minus sign *)

Lemma search_app_None r1 r2 : forall t,
  search r1 t = None -> search (r1 ++ r2) t = None.
Proof.
  induction t as [|c t IH]; intros H; rewrite search_eq in H |- *.
  - destruct (m r1 [] caps0) eqn:E; [discriminate|].
    assert (match_at r1 [] = false) as F by (unfold match_at; now rewrite E).
    now rewrite (match_at_false _ _ caps0 (match_at_app_false _ r2 _ F)).
  - destruct (m r1 (c :: t) caps0) eqn:E; [discriminate|]. simpl in H.
    assert (match_at r1 (c :: t) = false) as F by (unfold match_at; now rewrite E).
    rewrite (match_at_false _ _ caps0 (match_at_app_false _ r2 _ F)). simpl. auto.
Qed.

Lemma m_lits_eq l r : forall s st,
  m (lits l ++ r) (l ++ s) st = m r s (pushl l st).
Proof.
  induction l as [|c l IH]; intros s st; [reflexivity|].
  change (lits (c :: l) ++ r) with (One (OneOf [c]) :: (lits l ++ r)).
  change ((c :: l) ++ s) with (c :: (l ++ s)).
  rewrite m_one_eq. simpl. rewrite ascii_eqb_refl. simpl. apply IH.
Qed.

Lemma space_table c :
  implb (is_space c) (negb (ascii_eqb c "$") && negb (mem DigitComma c)) = true.
Proof. revert c. apply forall_ascii. vm_compute. reflexivity. Qed.

Lemma m_monto_fail c s st :
  ascii_eqb c "$" = false -> mem DigitComma c = false ->
  m monto (c :: s) st = None.
Proof.
  intros H1 H2. unfold monto.
  assert (mem (OneOf ["$"%char]) c = false) as H1'
    by (cbn [mem existsb]; now rewrite H1).
  rewrite m_opt_eq, H1'. cbn [or_else]. now rewrite m_open_eq, m_one_eq, H2.
Qed.

(** After optional whitespace, a minus sign is not the start of an amount. *)
Lemma m_ws_monto_menos sp rest : forall st,
  forallb is_space sp = true ->
  m (ws ++ monto) (sp ++ "-"%char :: rest) st = None.
Proof.
  change (ws ++ monto) with (Star Space :: monto).
  induction sp as [|c sp IH]; intros st Hsp; rewrite m_star_eq.
  - simpl. now rewrite m_monto_fail.
  - simpl in Hsp. apply andb_prop in Hsp as [Hc Hsp].
    change ((c :: sp) ++ "-"%char :: rest) with (c :: (sp ++ "-"%char :: rest)).
    cbn [mem]. rewrite Hc, (IH _ Hsp). simpl.
    pose proof (space_table c) as T. rewrite Hc in T. simpl in T.
    apply andb_prop in T as [T1 T2]. apply negb_true_iff in T1, T2.
    now apply m_monto_fail.
Qed.

(** X9.  A difference printed with a minus sign is not read: when the only
    [Diferencia:] of the text is followed by optional whitespace and [-],
    the pattern has no match and [Diferencia] keeps its default 0. *)
Theorem extraer_datos_pdf_diferencia_negativa (x sp rest : str) :
  let texto := x ++ lit "Diferencia:" ++ sp ++ "-"%char :: rest in
  forallb is_space sp = true ->
  no_start_in (chars "Diferencia:") x
    (lit "Diferencia:" ++ sp ++ "-"%char :: rest) = true ->
  ausente (chars "Diferencia:") (sp ++ "-"%char :: rest) = true ->
  ausente patron_diferencia texto = true /\
  (extraer_datos_pdf texto).1 !! "Diferencia"%string = Some (VInt 0).
Proof.
  intros texto Hsp Hx Hr.
  assert (ausente patron_diferencia texto = true) as Ha.
  { unfold ausente, texto, patron_diferencia.
    rewrite search_skip by now apply no_start_in_app.
    rewrite search_eq.
    change (chars "Diferencia:" ++ ws ++ monto)
      with (lits (lit "Diferencia:") ++ (ws ++ monto)) at 1.
    rewrite m_lits_eq, (m_ws_monto_menos sp rest _ Hsp). simpl.
    match goal with
    | |- context [search ?r (sp ++ _)] =>
        change r with (chars "Diferencia:" ++ (ws ++ monto))
    end.
    rewrite search_app_None; [reflexivity|].
    unfold ausente in Hr.
    now destruct (search (chars "Diferencia:") (sp ++ "-"%char :: rest)). }
  split; [exact Ha|].
  rewrite (campo_por_defecto texto 6 patron_diferencia);
    [reflexivity|reflexivity|assumption|now left].
Qed.

Lemma extraer_datos_pdf_diferencia_negativa_witness :
  let texto := lit "Efectivo contado Diferencia: -1,500 cierre" in
  ausente patron_diferencia texto = true /\
  (extraer_datos_pdf texto).1 !! "Diferencia"%string = Some (VInt 0).
Proof.
  apply (extraer_datos_pdf_diferencia_negativa (lit "Efectivo contado ")
           (lit " ") (lit "1,500 cierre")); reflexivity.
Defined.

(** *** A section without a sales value of its own *)




(* ===================================================================== *)
(** * Further properties of [procesar_pdf] *)

Lemma leer_paginas_textos ts : forall acc,
  leer_paginas acc (map (fun t => inr (Some t)) ts)
  = inr (acc ++ concat (map (fun t => t ++ nl) ts)).
Proof.
  induction ts as [|t ts IH]; intros acc; simpl.
  - now rewrite app_nil_r.
  - rewrite IH. now rewrite <- !app_assoc.
Qed.

Lemma leer_paginas_inv ps : forall acc t,
  leer_paginas acc ps = inr t ->
  exists ts, ps = map (fun t => inr (Some t)) ts.
Proof.
  induction ps as [|[e|[p|]] ps IH]; intros acc t H; simpl in H;
    try discriminate.
  - now exists [].
  - apply IH in H as [ts ->]. now exists (p :: ts).
Qed.

(** X1.  The text passed to the extractor is obtained exactly when every
    page yields a [str], and it is then the page texts in order, each
    followed by a newline. *)
Theorem leer_paginas_concatena (paginas : list (exn + option str)) (t : str) :
  leer_paginas [] paginas = inr t <->
  exists ts, paginas = map (fun p => inr (Some p)) ts /\
             t = concat (map (fun p => p ++ nl) ts).
Proof.
  split.
  - intros H. destruct (leer_paginas_inv _ _ _ H) as [ts ->].
    rewrite leer_paginas_textos in H. injection H as <-. now exists ts.
  - intros (ts & -> & ->). apply leer_paginas_textos.
Qed.

Lemma leer_paginas_app ts resto : forall acc,
  leer_paginas acc (map (fun t => inr (Some t)) ts ++ resto)
  = leer_paginas (acc ++ concat (map (fun t => t ++ nl) ts)) resto.
Proof.
  induction ts as [|t ts IH]; intros acc; simpl.
  - now rewrite app_nil_r.
  - rewrite IH. now rewrite <- !app_assoc.
Qed.

(** X2.  Reading stops at the first page that yields no text: whatever
    the pages before and after hold, [procesar_pdf] returns [None] and
    shows that page's error alone ([TypeError] when [extract_text()]
    returned [None]); the extractor is not run. *)
Theorem procesar_pdf_primera_pagina_mala
    (nombre : str) (ts : list str) (e : exn) (resto : list (exn + option str)) :
  procesar_pdf (Archivo nombre
                  (inr (map (fun p => inr (Some p)) ts ++ inl e :: resto)))
  = (None, [Error_al_procesar e]) /\
  procesar_pdf (Archivo nombre
                  (inr (map (fun p => inr (Some p)) ts ++ inr None :: resto)))
  = (None, [Error_al_procesar TypeError]).
Proof.
  unfold procesar_pdf. simpl. now rewrite !leer_paginas_app.
Qed.

(** X3.  Pages are joined by a newline, which [\s] accepts: a marker at the
    end of one page and its date-time token at the start of the next are
    read as one field. *)
Theorem procesar_pdf_entre_paginas (nombre p1 tok p2 : str) :
  matches fecha_hora tok ->
  no_start_in patron_apertura p1 (lit "A:" ++ nl ++ tok ++ p2 ++ nl) = true ->
  exists d log,
    procesar_pdf (Archivo nombre
                    (inr [inr (Some (p1 ++ lit "A:")); inr (Some (tok ++ p2))]))
    = (Some d, log) /\
    d !! "Apertura"%string = Some (VStr tok).
Proof.
  intros Htok Hp1.
  set (texto := p1 ++ lit "A:" ++ nl ++ tok ++ p2 ++ nl).
  assert (leer_paginas [] [inr (Some (p1 ++ lit "A:")); inr (Some (tok ++ p2))]
          = inr texto) as E0.
  { simpl. unfold texto. f_equal. now rewrite <- !app_assoc. }
  unfold procesar_pdf. cbn [abrir]. rewrite E0.
  destruct (extraer_datos_pdf texto) as [d log] eqn:E.
  exists d, log. split; [reflexivity|].
  change d with (d, log).1. rewrite <- E.
  eapply (campo_asignado _ 0); [reflexivity|reflexivity|now left|reflexivity|].
  unfold extraer_apertura, si_match, patron_apertura, texto.
  rewrite (search_marca "A:" p1 nl tok (p2 ++ nl)) by auto.
  apply lookup_insert_eq.
Qed.

Lemma procesar_pdf_entre_paginas_witness :
  exists d log,
    procesar_pdf (Archivo (lit "caja.pdf")
      (inr [inr (Some (lit "INFORME DIARIO A:"));
            inr (Some (lit "01/02/2024 08:00:00 AM C: 01/02/2024 09:00:00 PM"))]))
    = (Some d, log) /\
    d !! "Apertura"%string = Some (VStr (lit "01/02/2024 08:00:00 AM")).
Proof.
  apply (procesar_pdf_entre_paginas (lit "caja.pdf") (lit "INFORME DIARIO ")
           (lit "01/02/2024 08:00:00 AM") (lit " C: 01/02/2024 09:00:00 PM"));
    [|reflexivity].
  apply (matches_by_m _ _ [lit "01/02/2024 08:00:00 AM"]). reflexivity.
Defined.

(* ===================================================================== *)
(** * Further properties of the batch loop and of its results view *)

Lemma procesar_uno_desde st a :
  procesar_uno st a =
  Lote (resultados st ++ resultados (procesar_uno (Lote [] [] []) a))
       (errores st ++ errores (procesar_uno (Lote [] [] []) a))
       (mostrados st ++ mostrados (procesar_uno (Lote [] [] []) a)).
Proof.
  unfold procesar_uno. destruct (procesar_pdf a) as [[d|] log]; simpl.
  - destruct (bool_decide (d = ∅)); simpl; now rewrite ?app_nil_r.
  - now rewrite !app_nil_r.
Qed.

Lemma fold_procesar_uno l : forall st,
  fold_left procesar_uno l st =
  Lote (resultados st ++ resultados (procesar_lote l))
       (errores st ++ errores (procesar_lote l))
       (mostrados st ++ mostrados (procesar_lote l)).
Proof.
  unfold procesar_lote. induction l as [|a l IH]; intros st; simpl.
  - destruct st. simpl. now rewrite !app_nil_r.
  - rewrite (IH (procesar_uno st a)), (IH (procesar_uno (Lote [] [] []) a)).
    rewrite (procesar_uno_desde st a). simpl. now rewrite !app_assoc.
Qed.

(** X15.  Files are processed independently: the records, the failed names
    and the messages of a batch are those of its first part followed by
    those of the rest. *)
Theorem procesar_lote_app (l1 l2 : list archivo) :
  procesar_lote (l1 ++ l2) =
  Lote (resultados (procesar_lote l1) ++ resultados (procesar_lote l2))
       (errores (procesar_lote l1) ++ errores (procesar_lote l2))
       (mostrados (procesar_lote l1) ++ mostrados (procesar_lote l2)).
Proof.
  unfold procesar_lote at 1. rewrite fold_left_app.
  now rewrite fold_procesar_uno.
Qed.

Lemma mostrados_uno a :
  mostrados (procesar_uno (Lote [] [] []) a) = (procesar_pdf a).2.
Proof.
  unfold procesar_uno. destruct (procesar_pdf a) as [[d|] log]; simpl; auto.
  now destruct (bool_decide (d = ∅)).
Qed.

Lemma procesar_pdf_mensajes a :
  length (List.filter es_al_procesar (procesar_pdf a).2)
  = if falla a then 1%nat else 0%nat.
Proof.
  destruct (falla a) eqn:E.
  - destruct (procesar_pdf_falla _ E) as [e ->]. reflexivity.
  - rewrite (procesar_pdf_exitoso _ E). simpl.
    now destruct (mensajes_extraer (texto_de a)) as [-> | ->].
Qed.

(** X14.  The messages shown are those of each file in upload order, and
    exactly one "Error al procesar PDF" is shown per name in the list of
    failed files; an error of the extractor does not add a name to it. *)
Theorem procesar_lote_mensajes (uploaded_files : list archivo) :
  let l := procesar_lote uploaded_files in
  mostrados l = flat_map (fun a => (procesar_pdf a).2) uploaded_files /\
  length (List.filter es_al_procesar (mostrados l)) = length (errores l).
Proof.
  intros l.
  assert (mostrados l = flat_map (fun a => (procesar_pdf a).2) uploaded_files)
    as E.
  { unfold l, procesar_lote.
    induction uploaded_files as [|a fs IH]; [reflexivity|]. simpl.
    rewrite fold_procesar_uno. simpl. rewrite mostrados_uno. f_equal.
    exact IH. }
  split; [exact E|]. rewrite E.
  destruct (procesar_lote_desde uploaded_files (Lote [] [] [])) as [_ He].
  unfold l, procesar_lote. rewrite He. simpl. rewrite length_map.
  clear. induction uploaded_files as [|a fs IH]; [reflexivity|]. simpl.
  rewrite List.filter_app, length_app, procesar_pdf_mensajes, IH.
  destruct (falla a); reflexivity.
Qed.

(** *** The table and the outcome *)

Lemma dom_registro_de a : dom (registro_de a) = list_to_set columnas_orden.
Proof.
  unfold registro_de. rewrite dom_insert_L.
  pose proof (registro_completo_extraer (texto_de a)) as H.
  apply registro_completo_iff in H as (-> & _ & _).
  apply (bool_decide_unpack _). vm_compute. exact I.
Qed.

Lemma union_list_iguales (S : gset string) (x : gset string) (l : list (gset string)) :
  Forall (fun y => y = S) (x :: l) -> union_list (x :: l) = S.
Proof.
  revert x. induction l as [|y l IH]; intros x H.
  - apply List.Forall_inv in H as ->. apply set_eq. intros k.
    cbn [union_list foldr]. rewrite elem_of_union, elem_of_empty. tauto.
  - pose proof (List.Forall_inv H) as ->. apply List.Forall_inv_tail in H.
    change (union_list (S :: y :: l)) with (S ∪ union_list (y :: l)).
    rewrite (IH y H). apply set_eq. intros k. rewrite elem_of_union. tauto.
Qed.

Lemma columnas_registros a l :
  columnas (map registro_de (a :: l)) = list_to_set columnas_orden.
Proof.
  unfold columnas. rewrite map_map.
  apply (union_list_iguales _ (dom (registro_de a))
           (map (fun x => dom (registro_de x)) l)).
  change (dom (registro_de a) :: map (fun x => dom (registro_de x)) l)
    with (map (fun x => dom (registro_de x)) (a :: l)).
  apply Forall_map, List.Forall_forall. intros b _. apply dom_registro_de.
Qed.

Lemma celdas_registro a :
  Forall is_Some (map (fun k => registro_de a !! k) columnas_orden).
Proof.
  apply Forall_map, List.Forall_forall. intros k Hk. simpl.
  apply elem_of_dom. rewrite dom_registro_de.
  apply elem_of_list_to_set. now apply list_elem_of_In.
Qed.

(** X12.  Whenever the batch yields a record, the column selection of the
    results view does not raise: every record has exactly the nine columns
    of [columnas_orden], the table has one row per record and no cell of it
    is missing. *)
Theorem seleccionar_resultados (uploaded_files : list archivo) :
  let l := procesar_lote uploaded_files in
  resultados l <> [] ->
  columnas (resultados l) = list_to_set columnas_orden /\
  exists df,
    seleccionar columnas_orden (resultados l) = Some df /\
    length df = length (resultados l) /\
    Forall (fun fila => length fila = 9%nat /\ Forall is_Some fila) df.
Proof.
  intros l Hne. unfold l, procesar_lote in *.
  destruct (procesar_lote_desde uploaded_files (Lote [] [] [])) as [E _].
  simpl in E. rewrite E in *. clear E.
  destruct (List.filter exitoso uploaded_files) as [|a fs]; [now destruct Hne|].
  pose proof (columnas_registros a fs) as Hc. split; [exact Hc|].
  unfold seleccionar. rewrite Hc.
  exists (map (fun d : datos => map (fun k => d !! k) columnas_orden)
            (map registro_de (a :: fs))).
  split; [reflexivity|]. split; [now rewrite !length_map|].
  rewrite map_map. apply Forall_map, List.Forall_forall. intros b _.
  split; [reflexivity|apply celdas_registro].
Qed.

Lemma seleccionar_resultados_witness :
  let fs := [Archivo (lit "roto.pdf") (inl PdfError);
             Archivo (lit "caja.pdf") (inr [inr (Some (lit "Diferencia: $5"))])] in
  resultados (procesar_lote fs) <> [] /\
  exists df,
    seleccionar columnas_orden (resultados (procesar_lote fs)) = Some df /\
    length df = 1%nat.
Proof.
  intros fs.
  assert (resultados (procesar_lote fs) <> []) as H.
  { destruct (procesar_lote_desde fs (Lote [] [] [])) as [E _].
    unfold procesar_lote. rewrite E. discriminate. }
  split; [exact H|].
  destruct (seleccionar_resultados fs H) as (_ & df & E & Hlen & _).
  exists df. split; [exact E|]. rewrite Hlen.
  destruct (procesar_lote_desde fs (Lote [] [] [])) as [E' _].
  unfold procesar_lote. now rewrite E'.
Defined.

Lemma filter_falla_nil l :
  List.filter exitoso l = [] <-> forallb falla l = true.
Proof.
  unfold exitoso. induction l as [|a l IH]; simpl; [tauto|].
  destruct (falla a); simpl; [exact IH|]. split; discriminate.
Qed.

Lemma filter_falla_existsb l :
  List.filter falla l = [] <-> existsb falla l = false.
Proof.
  induction l as [|a l IH]; simpl; [tauto|].
  destruct (falla a); simpl; [split; discriminate|exact IH].
Qed.

(** X13.  The view after the loop: "nothing could be processed" exactly
    when every file failed; otherwise the table of the records of the other
    files with the counts N - M and N, and the warning, which names the
    failed files joined by ", ", exactly when some file failed. *)
Theorem mostrar_resultados_lote (uploaded_files : list archivo) :
  mostrar_resultados (procesar_lote uploaded_files) uploaded_files =
  if forallb falla uploaded_files then Some Sin_resultados
  else Some (Completado
               (map (fun a => map (fun k => registro_de a !! k) columnas_orden)
                  (List.filter exitoso uploaded_files))
               (length uploaded_files - length (List.filter falla uploaded_files))
               (length uploaded_files)
               (if existsb falla uploaded_files
                then Some (join (lit ", ")
                             (map name (List.filter falla uploaded_files)))
                else None)).
Proof.
  unfold mostrar_resultados, procesar_lote.
  destruct (procesar_lote_desde uploaded_files (Lote [] [] [])) as [-> ->].
  simpl.
  destruct (forallb falla uploaded_files) eqn:Ef.
  - apply filter_falla_nil in Ef. now rewrite Ef.
  - destruct (List.filter exitoso uploaded_files) as [|a fs] eqn:Ex.
    { apply filter_falla_nil in Ex. congruence. }
    unfold seleccionar. rewrite (columnas_registros a fs).
    change (forallb (fun k => bool_decide (k ∈ list_to_set columnas_orden))
              columnas_orden) with true.
    cbv iota. rewrite map_map, length_map.
    assert (length (a :: fs)
            = (length uploaded_files - length (List.filter falla uploaded_files))%nat)
      as ->.
    { rewrite <- Ex. unfold exitoso.
      pose proof (filter_particion falla uploaded_files). lia. }
    do 2 f_equal.
    destruct (existsb falla uploaded_files) eqn:Ee.
    + destruct (List.filter falla uploaded_files) eqn:E2; [|reflexivity].
      apply filter_falla_existsb in E2. congruence.
    + apply filter_falla_existsb in Ee. now rewrite Ee.
Qed.

(* ===================================================================== *)
(** * Further properties of [limpiar_valor_monetario] *)

Lemma lstrip_id u :
  starts_with (fun c => negb (is_space c)) u = true -> lstrip u = u.
Proof.
  destruct u as [|c u]; [reflexivity|]. simpl. intros H.
  apply negb_true_iff in H. now rewrite H.
Qed.

Lemma strip_idem t : strip (strip t) = strip t.
Proof.
  destruct (strip_no_space_ends t) as [H1 H2].
  unfold strip at 1, rstrip. rewrite (lstrip_id _ H1), (lstrip_id _ H2).
  apply rev_involutive.
Qed.

Lemma sin_simbolos_idem s : sin_simbolos (sin_simbolos s) = sin_simbolos s.
Proof. unfold sin_simbolos. apply filter_id, forallb_filter_same. Qed.

Lemma sin_simbolos_strip t :
  sin_simbolos t = t -> sin_simbolos (strip t) = strip t.
Proof.
  intros H. destruct (strip_decomp t) as (w1 & w2 & D & _ & _).
  assert (forallb (fun c => negb (ascii_eqb c "$" || ascii_eqb c ",")) t = true)
    as F by (rewrite <- H; apply forallb_filter_same).
  rewrite D, !forallb_app in F.
  apply andb_prop in F as [_ [F _]%andb_prop]. now apply filter_id.
Qed.

(** X10.  Normalizing twice is normalizing once, whenever the first result
    is not empty (on an input of symbols only the first result is the empty
    string and the second is ["0"]). *)
Theorem limpiar_valor_monetario_idempotente (valor : option str) :
  limpiar_valor_monetario valor <> [] ->
  limpiar_valor_monetario (Some (limpiar_valor_monetario valor))
  = limpiar_valor_monetario valor.
Proof.
  destruct valor as [[|c s]|]; try reflexivity.
  set (r := limpiar_valor_monetario (Some (c :: s))).
  assert (r = strip (sin_simbolos (c :: s))) as E
    by (unfold r, limpiar_valor_monetario; now rewrite replace_replace).
  intros Hne. destruct r as [|c' r'] eqn:Er; [congruence|].
  unfold limpiar_valor_monetario. rewrite replace_replace, E.
  rewrite sin_simbolos_strip by apply sin_simbolos_idem.
  apply strip_idem.
Qed.

Lemma limpiar_valor_monetario_idempotente_witness :
  (limpiar_valor_monetario (Some (lit " $1,234 ")) <> []) /\
  (limpiar_valor_monetario
     (Some (limpiar_valor_monetario (Some (lit " $1,234 ")))) = lit "1234") /\
  (limpiar_valor_monetario (Some (limpiar_valor_monetario (Some (lit "$"))))
   <> limpiar_valor_monetario (Some (lit "$"))).
Proof.
  assert (limpiar_valor_monetario (Some (lit " $1,234 ")) <> []) as H
    by (vm_compute; discriminate).
  split; [exact H|]. split.
  - rewrite (limpiar_valor_monetario_idempotente _ H). reflexivity.
  - vm_compute. discriminate.
Defined.

Lemma strip_sin_simbolos_limpio s :
  let r := strip (sin_simbolos s) in
  forallb (fun c => negb (ascii_eqb c "$" || ascii_eqb c ",")) r = true /\
  starts_with (fun c => negb (is_space c)) r = true /\
  starts_with (fun c => negb (is_space c)) (rev r) = true /\
  List.filter is_digit r = List.filter is_digit s.
Proof.
  intros r. unfold r. split; [|split; [|split]].
  - rewrite <- (sin_simbolos_strip (sin_simbolos s) (sin_simbolos_idem s)).
    apply forallb_filter_same.
  - apply strip_no_space_ends.
  - apply strip_no_space_ends.
  - now rewrite strip_keeps_digits, sin_simbolos_keeps_digits.
Qed.

(** X17.  For every input, absent and empty included, the result of the
    normalizer holds no [$] and no comma and neither starts nor ends with
    whitespace; for a non-empty input it keeps the digits of the input in
    order, and otherwise it is ["0"]. *)
Theorem limpiar_valor_monetario_limpio (valor : option str) :
  let r := limpiar_valor_monetario valor in
  forallb (fun c => negb (ascii_eqb c "$" || ascii_eqb c ",")) r = true /\
  starts_with (fun c => negb (is_space c)) r = true /\
  starts_with (fun c => negb (is_space c)) (rev r) = true /\
  match valor with
  | Some (c :: s) => List.filter is_digit r = List.filter is_digit (c :: s)
  | _ => r = lit "0"
  end.
Proof.
  destruct valor as [[|c s]|]; try (repeat split; reflexivity).
  intros r.
  assert (r = strip (sin_simbolos (c :: s))) as ->
    by (unfold r, limpiar_valor_monetario; now rewrite replace_replace).
  apply strip_sin_simbolos_limpio.
Qed.

(** *** The thousands format of the metrics is read back *)

Example formato_miles_ejemplos :
  formato_miles 0 = lit "0" /\ formato_miles 999 = lit "999" /\
  formato_miles 1000 = lit "1,000" /\ formato_miles 1234567 = lit "1,234,567" /\
  formato_miles (-45000) = lit "-45,000".
Proof. repeat split. Qed.








